(** * LiteDB: the query builders of [operations.py] and the table registry
      of [db.py], as a shallow embedding.

    Python classes become modules, methods become functions.  A method
    that talks to sqlite3 runs in the monad [M]: state passing over the
    [DB] object, with Python exceptions as [Raise].  The sqlite3 engine
    itself is outside the repository; the connection is modelled by the
    list of calls made on it so far ([history]) and by a function
    ([respond]) that says how the engine answers the next call. *)

From Stdlib Require Import ZArith List Ascii String.
From stdpp Require Import base option list gmap strings pretty.

Open Scope string_scope.
Open Scope Z_scope.

(** ** Python values and strings *)

(** The values a [TQueryData] mapping holds: [int | bool | str | None]. *)
Inductive value :=
  | VNone
  | VInt (n : Z)
  | VBool (b : bool)
  | VStr (s : string).

#[global] Instance value_eq_dec : EqDecision value.
Proof. solve_decision. Defined.

(** [str(v)], which is also what an f-string field [{v}] renders. *)
Definition str (v : value) : string :=
  match v with
  | VNone => "None"
  | VInt n => pretty n
  | VBool true => "True"
  | VBool false => "False"
  | VStr s => s
  end.

(** [c.lower()] on one character: the letters A..Z (codes 65..90) move
    to a..z, every other code is kept.  Strings are strings of bytes;
    no character outside ASCII lowers to a letter of [and] or [or]. *)
Definition ascii_lower (c : ascii) : ascii :=
  let n := N_of_ascii c in
  if ((65 <=? n) && (n <=? 90))%N then ascii_of_N (n + 32) else c.

(** [s.lower()]. *)
Fixpoint lower (s : string) : string :=
  match s with
  | EmptyString => EmptyString
  | String c r => String (ascii_lower c) (lower r)
  end.

(** [sep.join(parts)]. *)
Definition join (sep : string) (parts : list string) : string :=
  String.concat sep parts.

(** ** Python dicts: insertion-ordered, keyed by strings *)

Definition pydict (V : Type) := list (string * V).

(** [d.get(key)] with the value to return for a missing key. *)
Fixpoint dict_get {V} (key : string) (d : pydict V) (missing : V) : V :=
  match d with
  | [] => missing
  | (k, v) :: rest => if String.eqb key k then v else dict_get key rest missing
  end.

(** [d[key] = v]: an existing key keeps its place, a new key goes last. *)
Fixpoint dict_set {V} (key : string) (v : V) (d : pydict V) : pydict V :=
  match d with
  | [] => [(key, v)]
  | (k, w) :: rest =>
      if String.eqb key k then (k, v) :: rest else (k, w) :: dict_set key v rest
  end.

(** [dict(pairs)]: later pairs overwrite earlier ones. *)
Definition dict_of {V} (pairs : list (string * V)) : pydict V :=
  fold_left (fun d kv => dict_set (fst kv) (snd kv) d) pairs [].

(** Truth value of a dict or a tuple: non-empty. *)
Definition truthy {A} (l : list A) : bool :=
  match l with [] => false | _ :: _ => true end.

Definition TQueryData := pydict value.

(** ** Exceptions and results *)

(** [RepeatedKeyword key] is the TypeError of a call that gives the
    keyword [key] twice, "<callee>() got multiple values for keyword
    argument '<key>'"; [StorageError] stands for what sqlite3 raises. *)
Inductive exn :=
  | ValueError (msg : string)
  | TypeError (msg : string)
  | RepeatedKeyword (key : string)
  | IndexError
  | AttributeError
  | OverflowError
  | RecursionError
  | StorageError.

Inductive result (A : Type) :=
  | Ok (a : A)
  | Raise (e : exn).
Arguments Ok {A} a.
Arguments Raise {A} e.

(** ** Tables and rows (table.py and rows.py are not part of the sources) *)

(** Modelled from the spec: the Table class of table.py.  "Table: name
    (string, matches schema exactly), ... ordered sequence of
    (column-name, column-type) pairs reflecting declaration order".  Only
    the attributes read by operations.py and db.py are kept; [bound]
    records that the table object was called with a database
    ([table(db)]).  How table.py finds the columns of a discovered table
    is not known here: a new generic table starts with none. *)
Record Table := mkTable {
  name : string;
  column_names : list string;
  use_datacls_of : bool;
  bound : bool
}.

#[global] Instance Table_eq_dec : EqDecision Table.
Proof. solve_decision. Defined.

(** [Table(name, use_datacls=...)]. *)
Definition Table_new (nm : string) (use_datacls : bool) : Table :=
  mkTable nm [] use_datacls false.

(** [table(db)]. *)
Definition Table_call (t : Table) : Table :=
  mkTable (name t) (column_names t) (use_datacls_of t) true.

(** Modelled from the spec: the row class of rows.py.  "Row: owning Table,
    a mapping from column name to current value, a set of column names
    that have been mutated since construction". *)
Record Row := mkRow {
  row_table : Table;
  changed_columns : gset string;
  row_values : pydict value
}.

(** Modelled from the spec: the BaseType class of column_types.py, "renders
    a logical type to a schema-definition fragment". *)
Record BaseType := mkBaseType { render : string }.

(** ** The connection *)

(** One call on the shared cursor or connection. *)
Inductive call :=
  | Execute (query : string) (parameters : TQueryData)
  | ExecuteMany (query : string) (rows : list (list value))
  | Commit.

(** What can be bound to a name on the DB object: a table, the tuple the
    [tables] property caches, or something else. *)
#[warnings="-register-all"]
Inductive attr :=
  | ATable (t : Table)
  | ATuple (items : list attr)
  | AOther.

(** The DB object.  [respond h c] is the engine's answer to call [c] after
    the calls [h]: [None] when sqlite3 raises, else the rows of the result
    set.  [custom_tables] is [None] when the class does not define it.
    [attrs] holds the names bound after construction started: the table
    handles, [create_table] and the cached [tables].  Python does not fix
    the order in which a set is iterated, it comes with the hashes of the
    process: [set_order s] lists names in the order of their hashes, for
    the iteration of the set [s]. *)
Record DB := mkDB {
  respond : list call -> call -> option (list (list value));
  history : list call;
  use_datacls : bool;
  custom_tables : option (list Table);
  table_names : gset string;
  attrs : gmap string attr;
  set_order : gset string -> list string
}.

Definition set_history (h : list call) (db : DB) : DB :=
  mkDB (respond db) h (use_datacls db) (custom_tables db) (table_names db)
       (attrs db) (set_order db).

Definition set_table_names (s : gset string) (db : DB) : DB :=
  mkDB (respond db) (history db) (use_datacls db) (custom_tables db) s
       (attrs db) (set_order db).

Definition set_attrs (a : gmap string attr) (db : DB) : DB :=
  mkDB (respond db) (history db) (use_datacls db) (custom_tables db)
       (table_names db) a (set_order db).

(** ** The monad of methods: state passing over [DB], with exceptions *)

Definition M (A : Type) : Type := DB -> result A * DB.

Definition ret {A} (a : A) : M A := fun db => (Ok a, db).

Definition raise {A} (e : exn) : M A := fun db => (Raise e, db).

Definition bind {A B} (m : M A) (k : A -> M B) : M B :=
  fun db =>
    match m db with
    | (Ok a, db') => k a db'
    | (Raise e, db') => (Raise e, db')
    end.

Definition lift {A} (r : result A) : M A := fun db => (r, db).

Definition modify (f : DB -> DB) : M unit := fun db => (Ok tt, f db).

Notation "'let*' x ':=' m 'in' k" := (bind m (fun x => k))
  (at level 10, x name, m at level 100, k at level 200).
Notation "m '>>' k" := (bind m (fun _ => k))
  (at level 60, right associativity).

(** A [for] loop whose body may raise. *)
Fixpoint for_each {A} (l : list A) (body : A -> M unit) : M unit :=
  match l with
  | [] => ret tt
  | x :: rest => body x >> for_each rest body
  end.

(** A list comprehension whose element expression may raise. *)
Fixpoint comprehension {A B} (f : A -> result B) (l : list A) : result (list B) :=
  match l with
  | [] => Ok []
  | x :: rest =>
      match f x with
      | Raise e => Raise e
      | Ok y =>
          match comprehension f rest with
          | Raise e => Raise e
          | Ok ys => Ok (y :: ys)
          end
      end
  end.

(** The call reaches the engine and is recorded, whatever the answer. *)
Definition engine_call (c : call) : M (list (list value)) :=
  fun db =>
    let db' := set_history (history db ++ [c]) db in
    match respond db (history db) c with
    | Some rows => (Ok rows, db')
    | None => (Raise StorageError, db')
    end.

(** [cursor.execute(query, parameters)], giving the rows to fetch. *)
Definition cursor_execute (query : string) (parameters : TQueryData)
  : M (list (list value)) :=
  engine_call (Execute query parameters).

(** [cursor.executemany(query, rows)]. *)
Definition cursor_executemany (query : string) (rows : list (list value)) : M unit :=
  engine_call (ExecuteMany query rows) >> ret tt.

(** [db.commit()], which is [db.connect.commit]. *)
Definition db_commit : M unit :=
  engine_call Commit >> ret tt.

(** [cursor.fetchall()]. *)
Definition fetchall (rows : list (list value)) : list (list value) := rows.

(** [cursor.fetchmany(size)].  sqlite3 takes the size as a C int and
    raises OverflowError for a Python int outside that range; within it,
    the fetch stops when the count of rows equals the size, which a size
    of zero or below never does. *)
Definition fetchmany (size : Z) (rows : list (list value))
  : result (list (list value)) :=
  if (size <? -2147483648) || (2147483647 <? size) then Raise OverflowError
  else if 0 <? size then Ok (take (Z.to_nat size) rows)
  else Ok rows.

(** ** operations.py *)

(** One clause of the parameterized form. *)
Definition parameter_clause (kv : string * value) : string :=
  let (key, v) := kv in
  match v with
  | VNone => key ++ " is NULL"
  | _ => key ++ " = :" ++ key
  end.

(** One clause of the form with the values in the text. *)
Definition literal_clause (kv : string * value) : string :=
  let (key, v) := kv in
  match v with
  | VNone => key ++ " is NULL"
  | VStr s => key ++ " = '" ++ s ++ "'"
  | _ => key ++ " = " ++ str v
  end.

Module Operation.

Definition _make_operator_query
    (data : TQueryData) (operator : string) (without_parameters : bool)
  : result string :=
  if negb (bool_decide (lower operator ∈ ["and"; "or"; ","])) then
    Raise (ValueError "Incorrect operator.")
  else if negb without_parameters then
    Ok (join (" " ++ operator ++ " ") (map parameter_clause data))
  else
    Ok (join (" " ++ operator ++ " ") (map literal_clause data)).

End Operation.

Module TableOperation.

(** The override repeats the body of [Operation._make_operator_query]. *)
Definition _make_operator_query
    (data : TQueryData) (operator : string) (without_parameters : bool)
  : result string :=
  if negb (bool_decide (lower operator ∈ ["and"; "or"; ","])) then
    Raise (ValueError "Incorrect operator.")
  else if negb without_parameters then
    Ok (join (" " ++ operator ++ " ") (map parameter_clause data))
  else
    Ok (join (" " ++ operator ++ " ") (map literal_clause data)).

End TableOperation.

(** Modelled from the spec: the row constructor of rows.py, which "holds
    column values and a tracked set of mutated column names"; it is
    taken to accept every set of keywords.  What does not depend on
    rows.py is the call itself,
    [row_cls(table=table, changed_columns=changed, **kwargs)]: Python
    merges [kwargs] into the two keywords written out, and the first key
    of [kwargs], in its order, that repeats one of them is refused
    before the constructor runs. *)
Definition row_cls (table : Table) (changed : gset string) (kwargs : pydict value)
  : result Row :=
  match find (fun kv => String.eqb (fst kv) "table"
                        || String.eqb (fst kv) "changed_columns") kwargs with
  | Some kv => Raise (RepeatedKeyword (fst kv))
  | None => Ok (mkRow table changed kwargs)
  end.

Module Select.

Definition query (table : Table) : string :=
  "SELECT * FROM " ++ name table.

Definition _as_list_row (table : Table) (items : list (list value))
  : result (list Row) :=
  comprehension
    (fun item => row_cls table ∅ (dict_of (zip (column_names table) item)))
    items.

Definition _execute (table : Table)
    (query : string) (parameters : TQueryData) (size : Z) : M (list Row) :=
  if negb (size =? 0) then
    let* cursor := cursor_execute query parameters in
    let* result := lift (fetchmany size cursor) in
    lift (_as_list_row table result)
  else
    let* result := cursor_execute query parameters in
    lift (_as_list_row table (fetchall result)).

Definition _filter (table : Table)
    (filter_by : TQueryData) (size : Z) (operator : string) : M (list Row) :=
  let* operator_query :=
    lift (TableOperation._make_operator_query filter_by operator false) in
  let query := query table ++ " WHERE " ++ operator_query in
  _execute table query filter_by size.

Definition __call__ (table : Table)
    (size : Z) (operator : string) (filter_by : TQueryData) : M (list Row) :=
  if truthy filter_by then _filter table filter_by size operator
  else _execute table (query table) [] size.

End Select.

Module Insert.

(** The argument: one dict, or an iterable of dicts. *)
Inductive arg :=
  | One (d : TQueryData)
  | Many (ds : list TQueryData).

Definition query (table : Table) (item : list value) : string :=
  "INSERT INTO " ++ name table ++ " VALUES("
    ++ join ", " (map (fun _ => "?") item) ++ ")".

Definition _prepare_input_data (table : Table) (data : TQueryData)
  : list value :=
  map (fun nm => dict_get nm data VNone) (column_names table).

Definition __call__ (table : Table) (data : arg) : M unit :=
  let data := match data with One d => [d] | Many ds => ds end in
  let insert_data := map (_prepare_input_data table) data in
  if negb (forallb truthy insert_data) then ret tt
  else
    match insert_data with
    | [] => raise IndexError
    | first :: _ =>
        cursor_executemany (query table first) insert_data >> db_commit
    end.

End Insert.

Module Delete.

(** The [id] argument: [None], an int, or an iterable of ints. *)
Inductive id_arg :=
  | IdNone
  | IdInt (n : Z)
  | IdIterable (ids : list Z).

Definition query (table : Table) : string :=
  "DELETE FROM " ++ name table ++ " WHERE id=?".

Definition _filter (table : Table) (filter_by : TQueryData) : M unit :=
  if negb (truthy filter_by) then
    raise (ValueError "Value do not be empty.")
  else
    let* query_and :=
      lift (TableOperation._make_operator_query filter_by "AND" false) in
    let query := "DELETE FROM " ++ name table ++ " WHERE " ++ query_and in
    cursor_execute query filter_by >> db_commit.

Definition __call__ (table : Table) (id : id_arg) (filter_by : TQueryData)
  : M unit :=
  match id with
  | IdIterable xs =>
      let ids := map (fun id_ => [VStr (str (VInt id_))]) xs in
      cursor_executemany (query table) ids >> db_commit
  | IdInt n => _filter table (dict_set "id" (VInt n) filter_by)
  | IdNone => _filter table filter_by
  end.

End Delete.

Module Update.

(** The [data] argument: a dict, or an object of another type. *)
Inductive data_arg :=
  | Dict (d : TQueryData)
  | NotDict.

Definition query (table : Table) : string :=
  "UPDATE " ++ name table ++ " SET ".

Definition __call__ (table : Table) (data : data_arg) (filter_by : TQueryData)
  : M unit :=
  match data with
  | NotDict => raise (TypeError "Incorrect type for 'data.'")
  | Dict data =>
      if negb (truthy data) then
        raise (ValueError "Argument 'data' do not be empty.")
      else
        let* query_coma :=
          lift (TableOperation._make_operator_query data "," false) in
        let* query_operator :=
          lift (TableOperation._make_operator_query filter_by "AND" true) in
        let query := query table ++ query_coma in
        let query :=
          if truthy filter_by then query ++ " WHERE " ++ query_operator
          else query in
        cursor_execute query data >> db_commit
  end.

End Update.

(** ** db.py *)

(** Names the class body of [DB] defines. *)
Definition DB_class_attrs : list string :=
  ["__init__"; "initialize_tables"; "tables"; "__iter__"; "drop_tables";
   "__module__"; "__doc__"; "__dict__"; "__weakref__"; "__annotations__"].

(** Names [DB.__init__] assigns before it runs the discovery. *)
Definition DB_init_attrs : list string :=
  ["path"; "connect"; "cursor"; "execute"; "commit"; "use_datacls";
   "table_names"].

(** Names every object has (CPython 3.11). *)
Definition object_attrs : list string :=
  ["__class__"; "__delattr__"; "__dir__"; "__eq__"; "__format__"; "__ge__";
   "__getattribute__"; "__getstate__"; "__gt__"; "__hash__";
   "__init_subclass__"; "__le__"; "__lt__"; "__ne__"; "__new__";
   "__reduce__"; "__reduce_ex__"; "__repr__"; "__setattr__"; "__sizeof__";
   "__str__"; "__subclasshook__"].

(** The names that resolve on a DB object whatever was bound on it later:
    those of the class, of [object], of [__init__], and [custom_tables]
    when a subclass defines it.  [tables] is one of them, as a name of
    the class; what [hasattr] answers for it is another matter, since
    that runs the property: see [hasattr]. *)
Definition fixed_attr (custom : option (list Table)) (nm : string) : bool :=
  bool_decide (nm ∈ (DB_class_attrs ++ DB_init_attrs ++ object_attrs)%list)
  || (match custom with Some _ => true | None => false end
      && String.eqb nm "custom_tables").

(** The name is bound on the object or is one of its fixed names: what
    [hasattr] answers for every name but [tables]. *)
Definition resolves (db : DB) (nm : string) : bool :=
  bool_decide (nm ∈ dom (attrs db)) || fixed_attr (custom_tables db) nm.

(** The iteration of a set of names, each name of the set once: those
    that [set_order] lists, in that order, then the others. *)
Definition set_iteration (db : DB) (s : gset string) : list string :=
  let listed := remove_dups (filter (fun n => n ∈ s) (set_order db s)) in
  (listed ++ filter (fun n => n ∉ listed) (elements s))%list.

(** [getattr(db, nm)] while the [tables] property is being computed, so
    with nothing bound to [tables]: that name leads back into the
    property, without end, until Python raises RecursionError. *)
Definition getattr_in_tables (db : DB) (nm : string) : result attr :=
  match attrs db !! nm with
  | Some a => Ok a
  | None =>
      if String.eqb nm "tables" then Raise RecursionError
      else if fixed_attr (custom_tables db) nm then Ok AOther
      else Raise AttributeError
  end.

(** [db.tables], a cached property: what is bound to the name on the
    object if anything is, else the tuple of [getattr(db, table_name)]
    over [table_names], which is then bound to the name. *)
Definition tables : M attr :=
  fun db =>
    match attrs db !! "tables" with
    | Some a => (Ok a, db)
    | None =>
        match comprehension (getattr_in_tables db)
                (set_iteration db (table_names db)) with
        | Ok items =>
            (Ok (ATuple items),
             set_attrs (<["tables" := ATuple items]> (attrs db)) db)
        | Raise e => (Raise e, db)
        end
    end.

(** [hasattr(db, nm)]: whether [getattr(db, nm)] returns, AttributeError
    being the only exception it takes for a "no". *)
Definition hasattr (nm : string) : M bool :=
  fun db =>
    if String.eqb nm "tables" then
      match tables db with
      | (Ok _, db') => (Ok true, db')
      | (Raise AttributeError, db') => (Ok false, db')
      | (Raise e, db') => (Raise e, db')
      end
    else (Ok (resolves db nm), db).

(** [setattr(db, nm, table)]. *)
Definition setattr (nm : string) (t : Table) (db : DB) : DB :=
  set_attrs (<[nm := ATable t]> (attrs db)) db.

(** [db.table_names.add(nm)]. *)
Definition table_names_add (nm : string) (db : DB) : DB :=
  set_table_names ({[nm]} ∪ table_names db) db.

(** [del db.tables]: what the object holds under that name goes. *)
Definition del_tables (db : DB) : DB :=
  set_attrs (delete "tables" (attrs db)) db.

(** [name[0]] of a fetched row, which [.lower()] needs to be a string. *)
Definition row_name (row : list value) : result string :=
  match row with
  | [] => Raise IndexError
  | VStr s :: _ => Ok s
  | _ :: _ => Raise AttributeError
  end.

(** Body of the first loop of [initialize_tables]. *)
Definition bind_custom_table (table : Table) : M unit :=
  let* bound := hasattr (lower (name table)) in
  if bound then ret tt
  else
    modify (fun db =>
      let table := Table_call table in
      table_names_add (name table) (setattr (lower (name table)) table db)).

(** Body of the second loop of [initialize_tables]. *)
Definition bind_catalog_row (row : list value) : M unit :=
  let* name0 := lift (row_name row) in
  let* bound := hasattr (lower name0) in
  if bound then ret tt
  else
    modify (fun db =>
      let new_table := Table_call (Table_new name0 (use_datacls db)) in
      table_names_add (lower name0) (setattr (lower name0) new_table db)).

Definition initialize_tables : M unit :=
  let stmt := "SELECT name FROM sqlite_master WHERE type='table';" in
  let* result := cursor_execute stmt [] in
  let* custom := (fun db => (Ok (default [] (custom_tables db)), db)) in
  for_each custom bind_custom_table >>
  for_each (fetchall result) bind_catalog_row >>
  let* cached := hasattr "tables" in
  if cached then modify del_tables else ret tt.

Module CreateTable.

(** An element of a [columns] sequence: a string, or something else. *)
Inductive item :=
  | ItemStr (s : string)
  | ItemOther.

(** A value of a [columns] mapping: a [BaseType], or something else. *)
Inductive descriptor :=
  | Descriptor (d : BaseType)
  | NotDescriptor.

(** The [columns] argument: a [Sequence], a [MutableMapping], or an
    object that is neither. *)
Inductive columns_arg :=
  | ColSequence (items : list item)
  | ColMapping (m : pydict descriptor)
  | ColOther.

Definition is_Sequence (c : columns_arg) : bool :=
  match c with ColSequence _ => true | _ => false end.

Definition is_MutableMapping (c : columns_arg) : bool :=
  match c with ColMapping _ => true | _ => false end.

(** The elements of a sequence, and the items of a mapping. *)
Definition elements (c : columns_arg) : list item :=
  match c with ColSequence l => l | _ => [] end.

Definition items (c : columns_arg) : pydict descriptor :=
  match c with ColMapping m => m | _ => [] end.

Definition is_str (i : item) : bool :=
  match i with ItemStr _ => true | ItemOther => false end.

Definition is_BaseType (d : descriptor) : bool :=
  match d with Descriptor _ => true | NotDescriptor => false end.

Definition item_text (i : item) : string :=
  match i with ItemStr s => s | ItemOther => "" end.

Definition descriptor_text (d : descriptor) : string :=
  match d with Descriptor b => render b | NotDescriptor => "" end.

Definition query (if_not_exists : bool) : string :=
  let query := "CREATE TABLE " in
  if if_not_exists then query ++ "IF NOT EXISTS " else query.

Definition __call__
    (table_name : string) (columns : columns_arg)
    (table_primary_key : option (list string)) (if_not_exists : bool)
  : M unit :=
  let query := query if_not_exists ++ table_name in
  if negb (is_Sequence columns || is_MutableMapping columns) then
    raise (TypeError "Incorrect type for columns")
  else
    let primary_key :=
      match table_primary_key with
      | Some keys => ", PRIMARY KEY(" ++ join "," keys ++ ")"
      | None => ""
      end in
    if is_Sequence columns && forallb is_str (elements columns) then
      let columns_query := join ", " (map item_text (elements columns)) in
      let query := query ++ "(" ++ columns_query ++ primary_key ++ ")" in
      cursor_execute query [] >> db_commit >> initialize_tables
    else if negb (is_MutableMapping columns)
            || negb (forallb is_BaseType (map snd (items columns))) then
      raise (TypeError "Incorrect type for column item")
    else
      let columns_query :=
        join ", " (map (fun kv => fst kv ++ " " ++ descriptor_text (snd kv))
                       (items columns)) in
      let query := query ++ " (" ++ columns_query ++ primary_key ++ ")" in
      cursor_execute query [] >> db_commit >> initialize_tables.

End CreateTable.

(** ** Construction of the DB object *)

(** [DB(path, use_datacls=..., **connect_params)].  [connect] is what
    [sqlite3.connect] gives: [None] when it raises, else the engine behind
    the connection.  [custom] is the class attribute [custom_tables],
    [None] when the class does not define it, and [order] the order of
    the hashes of the process.  The object starts with nothing bound, no
    table name and no call made; the constructor gives the object, or
    raises what the discovery raises. *)
Definition DB__init__
    (connect : option (list call -> call -> option (list (list value))))
    (use_datacls : bool) (custom : option (list Table))
    (order : gset string -> list string) : result DB :=
  match connect with
  | None => Raise StorageError
  | Some engine =>
      let self := mkDB engine [] use_datacls custom ∅ ∅ order in
      match initialize_tables self with
      | (Raise e, _) => Raise e
      | (Ok _, self) =>
          Ok (set_attrs (<["create_table" := AOther]> (attrs self)) self)
      end
  end.

(** * Definitions for the statements *)

(** The spellings of [AND], [OR] and the comma, in every letter case. *)
Definition operator_spellings : list string :=
  ["AND"; "ANd"; "AnD"; "And"; "aND"; "aNd"; "anD"; "and";
   "OR"; "Or"; "oR"; "or"; ","].

(** [db] after the calls [cs] were made on its connection. *)
Definition after (cs : list call) (db : DB) : DB :=
  set_history (history db ++ cs)%list db.

(** The engine answers each of the calls [cs], made in this order on [db],
    without raising. *)
Fixpoint accepted (db : DB) (cs : list call) : bool :=
  match cs with
  | [] => true
  | c :: rest =>
      match respond db (history db) c with
      | Some _ => accepted (after [c] db) rest
      | None => false
      end
  end.

Definition catalog_stmt : string :=
  "SELECT name FROM sqlite_master WHERE type='table';".

(** The DB object with the tuple [items] cached under [tables]. *)
Definition cached (items : list attr) (db : DB) : DB :=
  set_attrs (<["tables" := ATuple items]> (attrs db)) db.

(** The body the two loops of [initialize_tables] share: a name that
    [hasattr] finds is left alone; else the table [tb] is bound under
    the name [nm] and [tn] joins the table names. *)
Definition bind_name (nm tn : string) (tb : DB -> Table) : M unit :=
  let* bound := hasattr nm in
  if bound then ret tt
  else modify (fun db => table_names_add tn (setattr nm (tb db) db)).

(** The end of [initialize_tables]: what is cached under [tables] goes. *)
Definition forget_tables : M unit :=
  let* cached := hasattr "tables" in
  if cached then modify del_tables else ret tt.

(** The [tables] property cannot be led back into itself: if [tables] is
    among the table names, something is bound to that name. *)
Definition tables_safe (db : DB) : Prop :=
  "tables" ∈ table_names db -> is_Some (attrs db !! "tables").

(** [m] returns on [db]: it does not raise. *)
Definition returns {A} (m : M A) (db : DB) : Prop :=
  exists a db', m db = (Ok a, db').

(** The name [nm] is bound on the object to a table of that name. *)
Definition bound_to_table (db : DB) (nm : string) : Prop :=
  exists t, attrs db !! nm = Some (ATable t) /\ lower (name t) = nm.

(** Some table name of the object is [nm] up to letter case. *)
Definition listed (db : DB) (nm : string) : Prop :=
  exists tn, tn ∈ table_names db /\ lower tn = nm.

(** Every table bound on the object sits under the lower case of its
    name. *)
Definition well_keyed (db : DB) : Prop :=
  forall key t, attrs db !! key = Some (ATable t) -> lower (name t) = key.

(** Whether a value is None. *)
Definition is_none (v : value) : bool :=
  match v with VNone => true | _ => false end.

(** An outcome that left [db] alone, or that is the StorageError of the
    one call made. *)
Definition stops_at_first_call {A} (out : result A * DB) (db : DB) : Prop :=
  snd out = db
  \/ (fst out = Raise StorageError /\ exists c, snd out = after [c] db).

(** [m] keeps the property [P] of the DB object, whatever it returns or
    raises. *)
Definition preserves {A} (P : DB -> Prop) (m : M A) : Prop :=
  forall db, P db -> P (snd (m db)).

(** Two DB objects with the same attributes, table names and class data:
    they differ at most by the history of the connection. *)
Definition same_registry (db db' : DB) : Prop :=
  attrs db' = attrs db /\ table_names db' = table_names db
  /\ custom_tables db' = custom_tables db /\ use_datacls db' = use_datacls db.

(** What the discovery may add: the table names and the attributes of the
    catalog and of the custom tables, for a given [use_datacls]. *)
Definition added_by_discovery (names : list string) (custom : list Table)
    (datacls : bool) (db db' : DB) : Prop :=
  (forall tn, tn ∈ table_names db' ->
     tn ∈ table_names db
     \/ (exists n, n ∈ names /\ tn = lower n)
     \/ (exists t, t ∈ custom /\ tn = name t))
  /\ (forall key a, attrs db' !! key = Some a ->
        attrs db !! key = Some a
        \/ (exists n, n ∈ names /\ key = lower n
                      /\ a = ATable (Table_call (Table_new n datacls)))
        \/ (exists t, t ∈ custom /\ key = lower (name t)
                      /\ a = ATable (Table_call t))).

(** The names under which [row_cls] takes its two own arguments. *)
Definition row_keywords : list string := ["table"; "changed_columns"].

(** ** Examples *)

Definition example_table : Table := mkTable "t" ["id"; "name"] false true.

(** An engine that takes every call and has three rows to give. *)
Definition example_db : DB :=
  mkDB (fun _ _ => Some [[VInt 1; VStr "a"]; [VInt 2; VNone]; [VInt 3; VStr "c"]])
       [] false None ∅ ∅ (fun _ => []).

(** A database whose catalog holds two tables, with one custom table
    declared on the class. *)
Definition catalog_db : DB :=
  mkDB (fun _ _ => Some [[VStr "Folder"]; [VStr "link"]])
       [] false (Some [mkTable "Notes" ["id"] false false]) ∅ ∅ (fun _ => []).

(** An engine that takes every call and lists the table [Folder]. *)
Definition folder_db : DB :=
  mkDB (fun _ _ => Some [[VStr "Folder"]]) [] false None ∅ ∅ (fun _ => []).

(** A connection whose engine refuses every call. *)
Definition dead_db : DB :=
  mkDB (fun _ _ => None) [Commit] true None {["t"]} ∅ (fun _ => []).

(** A class that declares the custom tables [Tables] and [Notes]. *)
Definition two_custom : list Table :=
  [mkTable "Tables" ["id"] false false; mkTable "Notes" ["id"] false false].

(** An engine that takes every call, over a database that is empty when
    the connection opens and holds the one table [nm] once a call was
    made. *)
Definition engine_creating (nm : string)
  : list call -> call -> option (list (list value)) :=
  fun h _ => Some (match h with [] => [] | _ :: _ => [[VStr nm]] end).

(** * Properties *)

(** ** Strings *)


(** A character is its own lower case, or the upper-case letter 32 codes
    below its lower case. *)
Lemma ascii_lower_cases (c : ascii) :
  c = ascii_lower c \/ c = ascii_of_N (N_of_ascii (ascii_lower c) - 32).
Proof.
  destruct c as [[] [] [] [] [] [] [] []]; vm_compute; auto.
Qed.

Ltac split_char H c :=
  let E := fresh "E" in
  destruct (ascii_lower_cases c) as [E|E];
  rewrite H in E; vm_compute in E; subst c.

Lemma lower_supported (op : string) :
  lower op ∈ ["and"; "or"; ","] <-> op ∈ operator_spellings.
Proof.
  split.
  - intros H.
    apply elem_of_cons in H as [E|H]; [|apply elem_of_cons in H as [E|H]];
      [| |apply list_elem_of_singleton in H as E].
    + destruct op as [|c1 [|c2 [|c3 [|c4 r]]]]; simpl in E; try discriminate.
      injection E as H1 H2 H3.
      split_char H1 c1; split_char H2 c2; split_char H3 c3;
        compute_done.
    + destruct op as [|c1 [|c2 [|c3 r]]]; simpl in E; try discriminate.
      injection E as H1 H2.
      split_char H1 c1; split_char H2 c2;
        compute_done.
    + destruct op as [|c1 [|c2 r]]; simpl in E; try discriminate.
      injection E as H1.
      split_char H1 c1; try discriminate;
        compute_done.
  - unfold operator_spellings. intros H.
    repeat (apply elem_of_cons in H as [->|H]; [compute_done|]).
    by apply elem_of_nil in H.
Qed.

(** ** The clause builder *)

(** The two classes carry the same builder. *)
Lemma builders_agree data op wp :
  Operation._make_operator_query data op wp
  = TableOperation._make_operator_query data op wp.
Proof. reflexivity. Qed.

Lemma builder_ok data op wp :
  lower op ∈ ["and"; "or"; ","] ->
  TableOperation._make_operator_query data op wp =
    Ok (join (" " ++ op ++ " ")
          (map (if wp then literal_clause else parameter_clause) data)).
Proof.
  intros H. unfold TableOperation._make_operator_query.
  rewrite bool_decide_true by done. by destruct wp.
Qed.

Lemma builder_raise data op wp :
  lower op ∉ ["and"; "or"; ","] ->
  TableOperation._make_operator_query data op wp =
    Raise (ValueError "Incorrect operator.").
Proof.
  intros H. unfold TableOperation._make_operator_query.
  by rewrite bool_decide_false.
Qed.

(** C2: for every mapping, operator and mode, each of the two clause
    builders raises exactly when the operator is not a spelling of AND, OR
    or the comma in some letter case; what it raises then is the
    ValueError "Incorrect operator.", and for a supported operator it
    returns a clause text. *)
Theorem make_operator_query_rejects_iff_unsupported
    (data : TQueryData) (op : string) (wp : bool) :
  ((exists e, TableOperation._make_operator_query data op wp = Raise e)
     <-> op ∉ operator_spellings)
  /\ ((exists e, Operation._make_operator_query data op wp = Raise e)
     <-> op ∉ operator_spellings)
  /\ (op ∉ operator_spellings ->
        TableOperation._make_operator_query data op wp
          = Raise (ValueError "Incorrect operator.")
        /\ Operation._make_operator_query data op wp
          = Raise (ValueError "Incorrect operator."))
  /\ (op ∈ operator_spellings ->
        exists s, TableOperation._make_operator_query data op wp = Ok s
               /\ Operation._make_operator_query data op wp = Ok s).
Proof.
  assert ((exists e, TableOperation._make_operator_query data op wp = Raise e)
          <-> op ∉ operator_spellings) as Hiff.
  { rewrite <- lower_supported. split.
    - intros [e He] Hin. by rewrite builder_ok in He.
    - intros Hn. eexists. by apply builder_raise. }
  split; [exact Hiff|]. split; [exact Hiff|]. split.
  - intros Hn. rewrite <- lower_supported in Hn.
    split; by apply builder_raise.
  - intros Hin. rewrite <- lower_supported in Hin.
    eexists. split; by apply builder_ok.
Qed.

Lemma make_operator_query_rejects_iff_unsupported_witness :
  (exists s, TableOperation._make_operator_query [("a", VInt 1)] "Or" true = Ok s
          /\ Operation._make_operator_query [("a", VInt 1)] "Or" true = Ok s)
  /\ TableOperation._make_operator_query [("a", VInt 1)] "xor" false
       = Raise (ValueError "Incorrect operator.")
  /\ Operation._make_operator_query [("a", VInt 1)] "xor" false
       = Raise (ValueError "Incorrect operator.").
Proof.
  destruct (make_operator_query_rejects_iff_unsupported [("a", VInt 1)] "Or" true)
    as (_ & _ & _ & Hok).
  destruct (make_operator_query_rejects_iff_unsupported [("a", VInt 1)] "xor" false)
    as (_ & _ & Hbad & _).
  split; [apply Hok|apply Hbad]; compute_done.
Defined.




(** ** Calls on the connection *)

Lemma append_assoc (a b c : string) : (a ++ b) ++ c = a ++ b ++ c.
Proof.
  induction a as [|x a IH]; [done|].
  change (String x ((a ++ b) ++ c) = String x (a ++ b ++ c)). by rewrite IH.
Qed.

Lemma after_after cs1 cs2 db : after cs2 (after cs1 db) = after (cs1 ++ cs2)%list db.
Proof. unfold after, set_history. simpl. by rewrite app_assoc. Qed.

Lemma engine_call_ok c rows db :
  respond db (history db) c = Some rows ->
  engine_call c db = (Ok rows, after [c] db).
Proof. intros H. unfold engine_call. by rewrite H. Qed.

(** A statement followed by a commit: the statement always reaches the
    engine first, and when the engine takes both, both are in the history
    and nothing is raised. *)
Lemma statement_then_commit (m : M unit) (c : call) (db : DB) :
  (forall db0, m db0 = (engine_call c >> ret tt) db0) ->
  (exists r rest, (m >> db_commit) db = (r, after (c :: rest) db)
                  /\ (rest = [] \/ rest = [Commit]))
  /\ (accepted db [c; Commit] = true ->
        (m >> db_commit) db = (Ok tt, after [c; Commit] db)).
Proof.
  intros Hm.
  assert ((m >> db_commit) db =
          match respond db (history db) c with
          | None => (Raise StorageError, after [c] db)
          | Some _ =>
              match respond db (history db ++ [c])%list Commit with
              | None => (Raise StorageError, after [c; Commit] db)
              | Some _ => (Ok tt, after [c; Commit] db)
              end
          end) as ->.
  { unfold bind at 1. rewrite Hm.
    unfold db_commit, bind, engine_call, ret, after, set_history. simpl.
    destruct (respond db (history db) c); simpl; [|done].
    destruct (respond db (history db ++ [c])%list Commit); simpl;
      by rewrite <- app_assoc. }
  unfold accepted, after, set_history. simpl.
  destruct (respond db (history db) c); simpl.
  - destruct (respond db (history db ++ [c])%list Commit); simpl;
      (split; [eexists _, [Commit]; by eauto|done]).
  - split; [|done]. exists (Raise StorageError), []. by eauto.
Qed.

Lemma execute_then_commit q p db :
  (exists r rest,
      (cursor_execute q p >> db_commit) db = (r, after (Execute q p :: rest) db)
      /\ (rest = [] \/ rest = [Commit]))
  /\ (accepted db [Execute q p; Commit] = true ->
        (cursor_execute q p >> db_commit) db
          = (Ok tt, after [Execute q p; Commit] db)).
Proof.
  pose proof (statement_then_commit (cursor_execute q p >> ret tt)
                (Execute q p) db (fun _ => eq_refl)) as [H1 H2].
  assert ((cursor_execute q p >> db_commit) db
          = ((cursor_execute q p >> ret tt) >> db_commit) db) as ->; [|done].
  unfold bind, cursor_execute, ret. by destruct (engine_call _ db) as [[] ?].
Qed.

Lemma executemany_then_commit q rows db :
  (exists r rest,
      (cursor_executemany q rows >> db_commit) db
        = (r, after (ExecuteMany q rows :: rest) db)
      /\ (rest = [] \/ rest = [Commit]))
  /\ (accepted db [ExecuteMany q rows; Commit] = true ->
        (cursor_executemany q rows >> db_commit) db
          = (Ok tt, after [ExecuteMany q rows; Commit] db)).
Proof. by apply statement_then_commit. Qed.

(** ** Update *)

Lemma comma_supported : lower "," ∈ ["and"; "or"; ","].
Proof. compute_done. Qed.

Lemma AND_supported : lower "AND" ∈ ["and"; "or"; ","].
Proof. compute_done. Qed.

Lemma bind_lift_ok {A B} (a : A) (k : A -> M B) (db : DB) :
  bind (lift (Ok a)) k db = k a db.
Proof. reflexivity. Qed.

(** C4: for a non-empty assignment dict and any keyword filters, the SET
    clause is what the parameterized builder gives for the assignments
    joined by the comma, the WHERE clause is what the literal-mode builder
    gives for the filters joined by AND; the statement is
    [UPDATE <table> SET <set clause>], followed by [ WHERE <where clause>]
    exactly when there is a filter; that statement, with the assignments
    as its parameters, is the first call made on the connection, at most
    a commit follows, and when the engine takes both calls the history
    grows by exactly the statement and the commit and nothing is raised. *)
Theorem update_builds_statement_and_commits
    (table : Table) (data filter_by : TQueryData) (db : DB) :
  data <> [] ->
  exists set_clause where_clause : string,
    TableOperation._make_operator_query data "," false = Ok set_clause
    /\ set_clause = join " , " (map parameter_clause data)
    /\ TableOperation._make_operator_query filter_by "AND" true = Ok where_clause
    /\ where_clause = join " AND " (map literal_clause filter_by)
    /\ let base := "UPDATE " ++ name table ++ " SET " ++ set_clause in
       let text :=
         match filter_by with
         | [] => base
         | _ :: _ => base ++ " WHERE " ++ where_clause
         end in
       (exists r rest,
           Update.__call__ table (Update.Dict data) filter_by db
             = (r, after (Execute text data :: rest) db)
           /\ (rest = [] \/ rest = [Commit]))
       /\ (accepted db [Execute text data; Commit] = true ->
             Update.__call__ table (Update.Dict data) filter_by db
               = (Ok tt, after [Execute text data; Commit] db)).
Proof.
  intros Hdata. eexists _, _.
  split; [apply builder_ok, comma_supported|]. split; [reflexivity|].
  split; [apply builder_ok, AND_supported|]. split; [reflexivity|].
  cbv zeta. unfold Update.__call__.
  destruct data as [|kv data]; [done|]. cbn [truthy negb].
  rewrite !builder_ok by (apply comma_supported || apply AND_supported).
  rewrite !bind_lift_ok. cbv zeta. unfold Update.query.
  destruct filter_by as [|f filter_by]; cbn [truthy];
    rewrite !append_assoc; apply execute_then_commit.
Qed.

Lemma update_builds_statement_and_commits_witness :
  Update.__call__ example_table (Update.Dict [("name", VStr "x"); ("id", VNone)])
      [("id", VInt 3); ("name", VStr "y")] example_db
  = (Ok tt,
     after [Execute "UPDATE t SET name = :name , id is NULL WHERE id = 3 AND name = 'y'"
              [("name", VStr "x"); ("id", VNone)]; Commit] example_db).
Proof.
  destruct (update_builds_statement_and_commits example_table
              [("name", VStr "x"); ("id", VNone)]
              [("id", VInt 3); ("name", VStr "y")] example_db)
    as (s & w & Hs & -> & Hw & -> & _ & H); [discriminate|].
  apply H. reflexivity.
Defined.

(** C7: Update raises the TypeError when its [data] is not a dict and the
    ValueError when it is the empty dict, whatever the filters; in both
    cases the DB object, the history of calls on its connection included,
    is what it was. *)
Theorem update_rejects_before_any_call
    (table : Table) (filter_by : TQueryData) (db : DB) :
  Update.__call__ table Update.NotDict filter_by db
    = (Raise (TypeError "Incorrect type for 'data.'"), db)
  /\ Update.__call__ table (Update.Dict []) filter_by db
    = (Raise (ValueError "Argument 'data' do not be empty."), db).
Proof. split; reflexivity. Qed.

(** ** Delete *)

Lemma dict_set_nonempty {V} key (v : V) d : dict_set key v d <> [].
Proof. destruct d as [|[k w] d]; simpl; [done|]. by destruct (String.eqb key k). Qed.

Lemma delete_filter_runs (table : Table) (filters : TQueryData) (db : DB) :
  filters <> [] ->
  let text := "DELETE FROM " ++ name table ++ " WHERE "
                ++ join " AND " (map parameter_clause filters) in
  (exists r rest,
      Delete._filter table filters db = (r, after (Execute text filters :: rest) db)
      /\ (rest = [] \/ rest = [Commit]))
  /\ (accepted db [Execute text filters; Commit] = true ->
        Delete._filter table filters db
          = (Ok tt, after [Execute text filters; Commit] db)).
Proof.
  intros Hf. cbv zeta. unfold Delete._filter.
  destruct filters as [|f filters]; [done|]. cbn [truthy negb].
  rewrite builder_ok by apply AND_supported. rewrite bind_lift_ok.
  apply execute_then_commit.
Qed.



(** C10: for an iterable of ids, with any keyword filters, Delete does
    what it does without the filters: the first call made is one
    [executemany] of [DELETE FROM <table> WHERE id=?] whose rows are the
    one-element tuples of [str(id)], a string and so never the int it
    came from; at most a commit follows; and when the engine takes both
    calls the history grows by exactly that statement and the commit and
    nothing is raised. *)
Theorem delete_by_ids_is_one_batch
    (table : Table) (ids : list Z) (filter_by : TQueryData) (db : DB) :
  let text := "DELETE FROM " ++ name table ++ " WHERE id=?" in
  let rows := map (fun n => [VStr (str (VInt n))]) ids in
  Delete.__call__ table (Delete.IdIterable ids) filter_by db
    = Delete.__call__ table (Delete.IdIterable ids) [] db
  /\ (forall n, [VStr (str (VInt n))] <> [VInt n])
  /\ (exists r rest,
         Delete.__call__ table (Delete.IdIterable ids) filter_by db
           = (r, after (ExecuteMany text rows :: rest) db)
         /\ (rest = [] \/ rest = [Commit]))
  /\ (accepted db [ExecuteMany text rows; Commit] = true ->
        Delete.__call__ table (Delete.IdIterable ids) filter_by db
          = (Ok tt, after [ExecuteMany text rows; Commit] db)).
Proof.
  cbv zeta. split; [reflexivity|]. split; [done|].
  unfold Delete.__call__, Delete.query. apply executemany_then_commit.
Qed.

Lemma delete_by_ids_is_one_batch_witness :
  Delete.__call__ example_table (Delete.IdIterable [1; -2; 30])
      [("name", VStr "x")] example_db
  = (Ok tt,
     after [ExecuteMany "DELETE FROM t WHERE id=?"
              [[VStr "1"]; [VStr "-2"]; [VStr "30"]]; Commit] example_db).
Proof.
  apply (delete_by_ids_is_one_batch example_table [1; -2; 30]
           [("name", VStr "x")] example_db).
  reflexivity.
Defined.

(** ** Insert *)

Lemma forallb_truthy_false {A} (rows : list (list A)) :
  [] ∈ rows -> forallb truthy rows = false.
Proof.
  induction rows as [|row rows IH]; intros H; [by apply elem_of_nil in H|].
  apply elem_of_cons in H as [<-|H]; [done|].
  simpl. rewrite IH by done. apply andb_false_r.
Qed.

Lemma prepared_row_empty_iff (table : Table) (d : TQueryData) :
  Insert._prepare_input_data table d = [] <-> column_names table = [].
Proof.
  unfold Insert._prepare_input_data. by destruct (column_names table).
Qed.

Lemma prepared_row_all_none (table : Table) (d : TQueryData) :
  (forall c, c ∈ column_names table -> dict_get c d VNone = VNone) ->
  Insert._prepare_input_data table d = map (fun _ => VNone) (column_names table).
Proof.
  intros H. unfold Insert._prepare_input_data.
  induction (column_names table) as [|c cs IH]; [done|]. simpl.
  rewrite H by apply list_elem_of_here. f_equal. apply IH.
  intros c' Hc'. apply H. by apply list_elem_of_further.
Qed.

(** X21: what the guard of Insert tests.  A prepared row is false for
    Python only when it is the empty tuple, and the prepared rows are
    empty exactly when the table has no column.  If some prepared row is empty the call
    returns without raising and without any call on the connection.  On a
    table with at least one column, a single mapping whose every column
    resolves to None is not skipped: the first call made is the
    [executemany] of the INSERT statement with one row of Nones, at most
    a commit follows, and when the engine takes both calls the history
    grows by exactly the two and nothing is raised. *)
Theorem insert_skips_on_empty_tuple_only
    (table : Table) (data : Insert.arg) (d : TQueryData) (db : DB) :
  let dicts := match data with Insert.One x => [x] | Insert.Many xs => xs end in
  let rows := map (Insert._prepare_input_data table) dicts in
  (forall row, row ∈ rows ->
     (truthy row = false <-> row = []) /\ (row = [] <-> column_names table = []))
  /\ ([] ∈ rows -> Insert.__call__ table data db = (Ok tt, db))
  /\ (column_names table <> [] ->
      (forall c, c ∈ column_names table -> dict_get c d VNone = VNone) ->
      let row := map (fun _ => VNone) (column_names table) in
      let text := "INSERT INTO " ++ name table ++ " VALUES("
                    ++ join ", " (map (fun _ => "?") (column_names table)) ++ ")" in
      (exists r rest,
          Insert.__call__ table (Insert.One d) db
            = (r, after (ExecuteMany text [row] :: rest) db)
          /\ (rest = [] \/ rest = [Commit]))
      /\ (accepted db [ExecuteMany text [row]; Commit] = true ->
            Insert.__call__ table (Insert.One d) db
              = (Ok tt, after [ExecuteMany text [row]; Commit] db))).
Proof.
  cbv zeta. split; [|split].
  - intros row Hrow. apply list_elem_of_fmap in Hrow as (x & -> & _).
    split; [|apply prepared_row_empty_iff].
    by destruct (Insert._prepare_input_data table x).
  - intros H. unfold Insert.__call__. by rewrite forallb_truthy_false.
  - intros Hcols Hnone. unfold Insert.__call__, Insert.query.
    cbn [map forallb]. rewrite (prepared_row_all_none _ _ Hnone).
    rewrite map_map.
    destruct (column_names table) as [|c cs] eqn:E; [done|].
    cbn [map truthy andb negb]. apply executemany_then_commit.
Qed.

Lemma insert_skips_on_empty_tuple_only_witness :
  Insert.__call__ (mkTable "e" [] false true) (Insert.One [("a", VInt 1)]) example_db
    = (Ok tt, example_db)
  /\ Insert.__call__ example_table (Insert.One [("id", VNone)]) example_db
    = (Ok tt,
       after [ExecuteMany "INSERT INTO t VALUES(?, ?)" [[VNone; VNone]]; Commit]
         example_db).
Proof.
  split.
  - apply (insert_skips_on_empty_tuple_only (mkTable "e" [] false true)
             (Insert.One [("a", VInt 1)]) [] example_db).
    apply list_elem_of_here.
  - destruct (insert_skips_on_empty_tuple_only example_table
                (Insert.One []) [("id", VNone)] example_db) as (_ & _ & H).
    destruct H as [_ H]; [discriminate| |by apply H].
    intros c Hc.
    apply elem_of_cons in Hc as [->|Hc]; [reflexivity|].
    apply elem_of_cons in Hc as [->|Hc]; [reflexivity|].
    by apply elem_of_nil in Hc.
Defined.

(** C1, at the failing input: on the table [t] with the columns [id] and
    [name], Insert of the single mapping [{"id": None}].  Every column
    of the mapping resolves to None, and yet the call is not skipped: the
    row of Nones goes to the engine with [executemany] and is
    committed. *)
Lemma insert_all_none_mapping_is_written :
  (forall c, c ∈ column_names example_table ->
             dict_get c [("id", VNone)] VNone = VNone)
  /\ Insert.__call__ example_table (Insert.One [("id", VNone)]) example_db
     = (Ok tt,
        after [ExecuteMany "INSERT INTO t VALUES(?, ?)" [[VNone; VNone]]; Commit]
          example_db)
  /\ Insert.__call__ example_table (Insert.One [("id", VNone)]) example_db
     <> (Ok tt, example_db).
Proof.
  split; [|split].
  - intros c Hc.
    apply elem_of_cons in Hc as [->|Hc]; [reflexivity|].
    apply elem_of_cons in Hc as [->|Hc]; [reflexivity|].
    by apply elem_of_nil in Hc.
  - reflexivity.
  - intros H. apply (f_equal (fun p => history (snd p))) in H.
    vm_compute in H. discriminate.
Qed.

(** ** Select *)

Lemma dict_set_keys {V} (key : string) (v : V) (d : pydict V) (x : string) :
  x ∈ map fst (dict_set key v d) -> x = key \/ x ∈ map fst d.
Proof.
  induction d as [|[k w] d IH]; simpl.
  - intros H. apply list_elem_of_singleton in H. by left.
  - destruct (String.eqb key k); simpl; intros H;
      apply elem_of_cons in H as [->|H].
    + right. apply list_elem_of_here.
    + right. by apply list_elem_of_further.
    + right. apply list_elem_of_here.
    + destruct (IH H) as [->|Hx]; [by left|right].
      by apply list_elem_of_further.
Qed.

Lemma fold_dict_set_keys {V} (pairs : list (string * V)) (acc : pydict V) (x : string) :
  x ∈ map fst (fold_left (fun d kv => dict_set (fst kv) (snd kv) d) pairs acc) ->
  x ∈ map fst acc \/ x ∈ map fst pairs.
Proof.
  revert acc. induction pairs as [|[k v] pairs IH]; simpl; intros acc H.
  - by left.
  - destruct (IH _ H) as [Hacc|Hrest].
    + destruct (dict_set_keys _ _ _ _ Hacc) as [->|Hx]; [right|by left].
      apply list_elem_of_here.
    + right. by apply list_elem_of_further.
Qed.

Lemma zip_keys {A B} (xs : list A) (ys : list B) (x : A) :
  x ∈ map fst (zip xs ys) -> x ∈ xs.
Proof.
  revert ys. induction xs as [|a xs IH]; intros [|b ys]; simpl; intros H;
    try by apply elem_of_nil in H.
  apply elem_of_cons in H as [->|H]; [apply list_elem_of_here|].
  apply list_elem_of_further. by apply (IH ys).
Qed.





Lemma comprehension_lookup {A B} (f : A -> result B) (l : list A) (ys : list B)
    (j : nat) (y : B) :
  comprehension f l = Ok ys -> ys !! j = Some y ->
  exists x, l !! j = Some x /\ f x = Ok y.
Proof.
  revert ys j. induction l as [|x l IH]; simpl; intros ys j H Hy.
  - by injection H as <-.
  - destruct (f x) as [b|] eqn:Ef; [|done].
    destruct (comprehension f l) as [bs|] eqn:Ec; [|done].
    injection H as <-. destruct j as [|j]; simpl in Hy.
    + injection Hy as <-. by exists x.
    + by apply (IH bs).
Qed.

Lemma comprehension_length {A B} (f : A -> result B) (l : list A) (ys : list B) :
  comprehension f l = Ok ys -> length ys = length l.
Proof.
  revert ys. induction l as [|x l IH]; simpl; intros ys H.
  - by injection H as <-.
  - destruct (f x) as [b|]; [|done].
    destruct (comprehension f l) as [bs|]; [|done].
    injection H as <-. simpl. by rewrite (IH bs).
Qed.

Lemma comprehension_raise_elem {A B} (f : A -> result B) (l : list A) (e : exn) :
  comprehension f l = Raise e -> exists x, x ∈ l /\ f x = Raise e.
Proof.
  induction l as [|x l IH]; simpl; [done|].
  destruct (f x) as [b|e0] eqn:Ef.
  - destruct (comprehension f l) as [bs|e1]; [done|].
    intros H. injection H as ->. destruct (IH eq_refl) as (x' & Hx' & Hf).
    exists x'. split; [by apply list_elem_of_further|done].
  - intros H. injection H as ->. exists x. split; [apply list_elem_of_here|done].
Qed.

Lemma comprehension_raise_back {A B} (f : A -> result B) (l : list A) (x : A)
    (e : exn) :
  x ∈ l -> f x = Raise e -> exists e', comprehension f l = Raise e'.
Proof.
  induction l as [|x0 l IH]; intros Hx Hf; [by apply elem_of_nil in Hx|].
  simpl. destruct (f x0) as [b|e0] eqn:Ef; [|by eauto].
  apply elem_of_cons in Hx as [->|Hx]; [congruence|].
  destruct (IH Hx Hf) as [e' ->]. by eauto.
Qed.

Lemma comprehension_raise_first {A B} (f : A -> result B) (l : list A) (x : A)
    (P : exn -> Prop) :
  x ∈ l -> (exists e, f x = Raise e) ->
  (forall y e, y ∈ l -> f y = Raise e -> P e) ->
  exists e, comprehension f l = Raise e /\ P e.
Proof.
  intros Hx Hf HP.
  destruct Hf as [e0 Hf].
  destruct (comprehension_raise_back f l x e0 Hx Hf) as [e He].
  exists e. split; [done|].
  apply comprehension_raise_elem in He as (y & Hy & Hfy). by apply (HP y).
Qed.

(** With distinct column names the keyword dict is the positional zip. *)
Lemma dict_set_fresh {V} (key : string) (v : V) (d : pydict V) :
  key ∉ map fst d -> dict_set key v d = (d ++ [(key, v)])%list.
Proof.
  induction d as [|[k w] d IH]; simpl; intros H; [done|].
  destruct (String.eqb key k) eqn:E.
  - apply String.eqb_eq in E as ->. destruct H. apply list_elem_of_here.
  - rewrite IH; [done|]. intros Hin. apply H. by apply list_elem_of_further.
Qed.

Lemma fold_dict_set_fresh {V} (pairs : list (string * V)) (acc : pydict V) :
  NoDup (map fst acc ++ map fst pairs)%list ->
  fold_left (fun d kv => dict_set (fst kv) (snd kv) d) pairs acc
    = (acc ++ pairs)%list.
Proof.
  revert acc. induction pairs as [|[k v] pairs IH]; simpl; intros acc H.
  - by rewrite app_nil_r.
  - rewrite dict_set_fresh.
    + rewrite IH; [by rewrite <- app_assoc|].
      rewrite map_app. simpl. by rewrite <- app_assoc.
    + apply NoDup_app in H as (_ & H & _). intros Hk.
      apply (H k Hk). apply list_elem_of_here.
Qed.

Lemma zip_keys_NoDup {A B} (xs : list A) (ys : list B) :
  NoDup xs -> NoDup (map fst (zip xs ys)).
Proof.
  revert ys. induction xs as [|a xs IH]; intros [|b ys] H; simpl;
    try apply NoDup_nil_2.
  apply NoDup_cons in H as [Ha H]. apply NoDup_cons. split; [|by apply IH].
  intros Hin. by apply zip_keys in Hin.
Qed.

Lemma dict_of_zip_distinct (cols : list string) (item : list value) :
  NoDup cols -> dict_of (zip cols item) = zip cols item.
Proof.
  intros H. unfold dict_of. rewrite fold_dict_set_fresh; [done|].
  simpl. by apply zip_keys_NoDup.
Qed.









(** ** Invariants of the operations *)

Section Preserves.

Variable P : DB -> Prop.
Hypothesis P_history : forall h db, P db -> P (set_history h db).

Lemma preserves_ret {A} (a : A) : preserves P (ret a).
Proof. by intros db. Qed.

Lemma preserves_raise {A} (e : exn) : preserves P (@raise A e).
Proof. by intros db. Qed.

Lemma preserves_lift {A} (r : result A) : preserves P (lift r).
Proof. by intros db. Qed.

Lemma preserves_bind {A B} (m : M A) (k : A -> M B) :
  preserves P m -> (forall a, preserves P (k a)) -> preserves P (bind m k).
Proof.
  intros Hm Hk db HP. unfold bind. specialize (Hm db HP).
  destruct (m db) as [[a|e] db']; simpl in *; [by apply Hk|done].
Qed.

Lemma preserves_engine_call (c : call) : preserves P (engine_call c).
Proof.
  intros db HP. unfold engine_call.
  destruct (respond db (history db) c); simpl; by apply P_history.
Qed.

Lemma preserves_statement (c : call) : preserves P (engine_call c >> ret tt).
Proof.
  apply preserves_bind; [apply preserves_engine_call|].
  intros _. apply preserves_ret.
Qed.

Lemma preserves_for_each {A} (body : A -> M unit) (l : list A) :
  (forall x, preserves P (body x)) -> preserves P (for_each l body).
Proof.
  intros Hbody. induction l as [|x l IH]; simpl; [apply preserves_ret|].
  apply preserves_bind; [apply Hbody|by intros _].
Qed.

Lemma preserves_select table size op filter_by :
  preserves P (Select.__call__ table size op filter_by).
Proof.
  assert (forall q p, preserves P (Select._execute table q p size)) as Hexec.
  { intros q p. unfold Select._execute, cursor_execute.
    destruct (negb _); (apply preserves_bind; [apply preserves_engine_call|]);
      intros rows; [|apply preserves_lift].
    apply preserves_bind; [apply preserves_lift|]. intros result.
    apply preserves_lift. }
  unfold Select.__call__, Select._filter. destruct (truthy filter_by); [|done].
  apply preserves_bind; [apply preserves_lift|]. intros w. apply Hexec.
Qed.

Lemma preserves_insert table data : preserves P (Insert.__call__ table data).
Proof.
  unfold Insert.__call__. destruct (negb _); [apply preserves_ret|].
  destruct (map _ _); [apply preserves_raise|].
  apply preserves_bind; [apply preserves_statement|].
  intros _. apply preserves_statement.
Qed.

Lemma preserves_update table data filter_by :
  preserves P (Update.__call__ table data filter_by).
Proof.
  unfold Update.__call__. destruct data as [data|]; [|apply preserves_raise].
  destruct (negb _); [apply preserves_raise|].
  apply preserves_bind; [apply preserves_lift|]. intros s.
  apply preserves_bind; [apply preserves_lift|]. intros w.
  apply preserves_bind; [apply preserves_engine_call|].
  intros _. apply preserves_statement.
Qed.

Lemma preserves_delete table id filter_by :
  preserves P (Delete.__call__ table id filter_by).
Proof.
  assert (forall f, preserves P (Delete._filter table f)) as Hf.
  { intros f. unfold Delete._filter. destruct (negb _); [apply preserves_raise|].
    apply preserves_bind; [apply preserves_lift|]. intros w.
    apply preserves_bind; [apply preserves_engine_call|].
    intros _. apply preserves_statement. }
  destruct id; unfold Delete.__call__; try apply Hf.
  apply preserves_bind; [apply preserves_statement|].
  intros _. apply preserves_statement.
Qed.

End Preserves.

(** ** Discovery *)

(** *** Names that resolve *)

Lemma resolves_tables (db : DB) : resolves db "tables" = true.
Proof. unfold resolves. apply orb_true_iff. right. by vm_compute. Qed.

Lemma resolves_bound (nm : string) (t : Table) (tn : string) (db : DB) :
  resolves (table_names_add tn (setattr nm t db)) nm = true.
Proof.
  unfold resolves. cbn [table_names_add setattr set_table_names set_attrs attrs].
  rewrite bool_decide_true; [done|]. rewrite dom_insert_L. set_solver.
Qed.

Lemma resolves_other (nm x : string) (t : Table) (tn : string) (db : DB) :
  x <> nm -> resolves (table_names_add tn (setattr nm t db)) x = resolves db x.
Proof.
  intros Hne. unfold resolves.
  cbn [table_names_add setattr set_table_names set_attrs attrs custom_tables].
  f_equal. apply bool_decide_ext.
  rewrite dom_insert_L, elem_of_union, elem_of_singleton. tauto.
Qed.

Lemma resolves_cached (items : list attr) (db : DB) (x : string) :
  x <> "tables" -> resolves (cached items db) x = resolves db x.
Proof.
  intros Hne. unfold resolves. cbn [cached set_attrs attrs custom_tables].
  f_equal. apply bool_decide_ext.
  rewrite dom_insert_L, elem_of_union, elem_of_singleton. tauto.
Qed.

Lemma resolves_del_tables (db : DB) (x : string) :
  x <> "tables" -> resolves (del_tables db) x = resolves db x.
Proof.
  intros Hne. unfold resolves. cbn [del_tables set_attrs attrs custom_tables].
  f_equal. apply bool_decide_ext.
  rewrite dom_delete_L, elem_of_difference, elem_of_singleton. tauto.
Qed.

Lemma resolves_false_unbound (db : DB) (nm : string) :
  resolves db nm = false -> attrs db !! nm = None.
Proof.
  unfold resolves. intros H. apply orb_false_iff in H as [H _].
  apply bool_decide_eq_false in H. by apply not_elem_of_dom.
Qed.

Lemma resolves_false_not_tables (db : DB) (nm : string) :
  resolves db nm = false -> nm <> "tables".
Proof. intros H ->. by rewrite resolves_tables in H. Qed.

Lemma resolves_bound_attr (db : DB) (nm : string) (a : attr) :
  attrs db !! nm = Some a -> resolves db nm = true.
Proof.
  intros H. unfold resolves. rewrite bool_decide_true; [done|].
  by apply elem_of_dom_2 in H.
Qed.

(** *** The cached property and [hasattr] *)

Lemma set_attrs_same (db : DB) : set_attrs (attrs db) db = db.
Proof. by destruct db. Qed.

Lemma del_tables_cached (items : list attr) (db : DB) :
  del_tables (cached items db) = del_tables db.
Proof.
  unfold del_tables, cached, set_attrs. simpl. by rewrite delete_insert_eq.
Qed.

Lemma del_tables_unbound (db : DB) :
  attrs db !! "tables" = None -> del_tables db = db.
Proof.
  intros H. unfold del_tables. rewrite delete_id by done. apply set_attrs_same.
Qed.

Lemma set_iteration_elem (db : DB) (s : gset string) (x : string) :
  x ∈ set_iteration db s <-> x ∈ s.
Proof.
  unfold set_iteration. cbv zeta.
  rewrite elem_of_app, list_elem_of_filter, elem_of_remove_dups,
    list_elem_of_filter, elem_of_elements.
  split; [tauto|]. intros Hx.
  destruct (decide (x ∈ set_order db s)); tauto.
Qed.

Lemma getattr_in_tables_raise (db : DB) (nm : string) (e : exn) :
  getattr_in_tables db nm = Raise e ->
  attrs db !! nm = None
  /\ ((e = RecursionError /\ nm = "tables")
      \/ (e = AttributeError /\ nm <> "tables"
          /\ fixed_attr (custom_tables db) nm = false)).
Proof.
  unfold getattr_in_tables. destruct (attrs db !! nm); [done|].
  destruct (String.eqb nm "tables") eqn:E.
  - apply String.eqb_eq in E. intros H. injection H as <-. by auto.
  - apply String.eqb_neq in E.
    destruct (fixed_attr _ nm); [done|]. intros H. injection H as <-. by auto.
Qed.

(** What [hasattr] answers and does.  For a name other than [tables] it
    is the pure name resolution.  For [tables] it is the cached property:
    found on the object; or computed and cached; or failing on a table
    name that is no attribute, which is a "no"; or led back into itself
    by the table name [tables]. *)
Lemma hasattr_cases (nm : string) (d : DB) :
  (hasattr nm d = (Ok true, d)
   /\ (nm <> "tables" -> resolves d nm = true)
   /\ (nm = "tables" -> is_Some (attrs d !! "tables")))
  \/ (nm = "tables" /\ attrs d !! "tables" = None
      /\ exists items, hasattr nm d = (Ok true, cached items d))
  \/ (hasattr nm d = (Ok false, d) /\ attrs d !! nm = None
      /\ (nm <> "tables" -> resolves d nm = false))
  \/ (hasattr nm d = (Raise RecursionError, d) /\ nm = "tables"
      /\ attrs d !! "tables" = None /\ "tables" ∈ table_names d).
Proof.
  unfold hasattr. destruct (String.eqb nm "tables") eqn:E.
  - apply String.eqb_eq in E as ->. unfold tables.
    destruct (attrs d !! "tables") as [a|] eqn:Ea.
    + left. split; [done|]. split; [done|]. by eauto.
    + destruct (comprehension _ _) as [items|e] eqn:Ec.
      * right; left. split; [done|]. split; [done|]. by exists items.
      * apply comprehension_raise_elem in Ec as (x & Hx & Hf).
        apply set_iteration_elem in Hx.
        apply getattr_in_tables_raise in Hf as [Hn [[-> ->]|(-> & Hne & _)]].
        -- right; right; right. done.
        -- right; right; left. done.
  - apply String.eqb_neq in E. destruct (resolves d nm) eqn:Er.
    + left. done.
    + right; right; left. split; [done|].
      split; [by apply resolves_false_unbound|done].
Qed.

Lemma hasattr_not_tables (nm : string) (d : DB) :
  nm <> "tables" -> hasattr nm d = (Ok (resolves d nm), d).
Proof.
  intros H. unfold hasattr. apply String.eqb_neq in H. by rewrite H.
Qed.

(** A table name that is no attribute of the object makes the property
    raise AttributeError, unless [tables] itself is a table name met
    before it: [hasattr] then says that the object has no [tables]. *)
Lemma hasattr_tables_unresolved (d : DB) (x : string) :
  attrs d !! "tables" = None ->
  "tables" ∉ table_names d ->
  x ∈ table_names d -> resolves d x = false ->
  hasattr "tables" d = (Ok false, d).
Proof.
  intros Hun Hno Hx Hr. unfold hasattr, tables. cbn [String.eqb Ascii.eqb Bool.eqb].
  rewrite Hun.
  destruct (comprehension_raise_first (getattr_in_tables d)
              (set_iteration d (table_names d)) x (fun e => e = AttributeError))
    as (e & -> & ->); [by apply set_iteration_elem| | |done].
  - exists AttributeError. unfold getattr_in_tables.
    rewrite (resolves_false_unbound _ _ Hr).
    assert (x <> "tables") as Hne by (by intros ->).
    apply String.eqb_neq in Hne. rewrite Hne.
    unfold resolves in Hr. apply orb_false_iff in Hr as [_ ->]. done.
  - intros y e Hy He. apply set_iteration_elem in Hy.
    apply getattr_in_tables_raise in He as [_ [[_ ->]|[-> _]]]; done.
Qed.

(** *** The bodies of the loops *)

Lemma bind_name_cases (nm tn : string) (tb : DB -> Table) (d : DB) :
  (bind_name nm tn tb d = (Ok tt, d)
   /\ (nm <> "tables" -> resolves d nm = true)
   /\ (nm = "tables" -> is_Some (attrs d !! "tables")))
  \/ (nm = "tables" /\ attrs d !! "tables" = None
      /\ exists items, bind_name nm tn tb d = (Ok tt, cached items d))
  \/ (bind_name nm tn tb d = (Ok tt, table_names_add tn (setattr nm (tb d) d))
      /\ attrs d !! nm = None
      /\ (nm <> "tables" -> resolves d nm = false))
  \/ (bind_name nm tn tb d = (Raise RecursionError, d) /\ nm = "tables"
      /\ attrs d !! "tables" = None /\ "tables" ∈ table_names d).
Proof.
  unfold bind_name, bind.
  destruct (hasattr_cases nm d)
    as [(-> & H)|[(Hnm & Hun & items & ->)|[(-> & H)|(-> & H)]]]; simpl; auto.
  right; left. split; [done|]. split; [done|]. by exists items.
Qed.

Lemma forget_tables_cases (d : DB) :
  forget_tables d = (Ok tt, del_tables d)
  \/ (forget_tables d = (Raise RecursionError, d)
      /\ attrs d !! "tables" = None /\ "tables" ∈ table_names d).
Proof.
  unfold forget_tables, bind.
  destruct (hasattr_cases "tables" d)
    as [(-> & _)|[(_ & Hun & items & ->)|[(-> & Hun & _)|(-> & _ & H)]]]; simpl.
  - by left.
  - left. unfold modify. by rewrite del_tables_cached.
  - left. unfold ret. by rewrite del_tables_unbound.
  - by right.
Qed.

Lemma bind_custom_table_eq (t : Table) :
  bind_custom_table t
  = bind_name (lower (name t)) (name t) (fun _ => Table_call t).
Proof. reflexivity. Qed.

Lemma bind_catalog_row_eq (n : string) (rest : list value) :
  bind_catalog_row (VStr n :: rest)
  = bind_name (lower n) (lower n)
      (fun db => Table_call (Table_new n (use_datacls db))).
Proof. reflexivity. Qed.

Lemma bind_catalog_row_cases (row : list value) :
  (exists e, forall d, bind_catalog_row row d = (Raise e, d))
  \/ (exists n rest, row = VStr n :: rest).
Proof.
  destruct row as [|[] rest]; try (left; by eexists); right; by eauto.
Qed.

(** *** Loops *)

Lemma bind_ok {A B} (m : M A) (k : A -> M B) (a : A) (db db' : DB) :
  m db = (Ok a, db') -> bind m k db = k a db'.
Proof. intros H. unfold bind. by rewrite H. Qed.

Lemma bind_ok_inv {A B} (m : M A) (k : A -> M B) (b : B) (db db' : DB) :
  bind m k db = (Ok b, db') ->
  exists a d, m db = (Ok a, d) /\ k a d = (Ok b, db').
Proof.
  unfold bind. destruct (m db) as [[a|e] d]; [|done]. by eauto.
Qed.

Lemma for_each_map {A B} (g : A -> B) (body : B -> M unit) (l : list A) :
  for_each (map g l) body = for_each l (fun x => body (g x)).
Proof. induction l as [|x l IH]; simpl; [done|]. by rewrite IH. Qed.

Lemma for_each_ext {A} (body body' : A -> M unit) (l : list A) (d : DB) :
  (forall x d0, x ∈ l -> body x d0 = body' x d0) ->
  for_each l body d = for_each l body' d.
Proof.
  revert d. induction l as [|x l IH]; intros d H; [done|]. simpl.
  unfold bind. rewrite H by apply list_elem_of_here.
  destruct (body' x d) as [[[]|e] d1]; [|done].
  apply IH. intros y d0 Hy. by apply H, list_elem_of_further.
Qed.

Lemma preserves_for_each_in {A} (P : DB -> Prop) (body : A -> M unit) (l : list A) :
  (forall x, x ∈ l -> preserves P (body x)) -> preserves P (for_each l body).
Proof.
  induction l as [|x l IH]; intros Hbody; [by intros d|]. simpl.
  apply preserves_bind; [apply Hbody, list_elem_of_here|]. intros _.
  apply IH. intros y Hy. by apply Hbody, list_elem_of_further.
Qed.

(** What the body of [x] brings about, the bodies after it keep. *)
Lemma for_each_establishes {A} (body : A -> M unit) (Q' Q : DB -> Prop)
    (l : list A) (x : A) (d d' : DB) :
  (forall y, y ∈ l -> preserves Q' (body y)) ->
  (forall y, y ∈ l -> preserves Q (body y)) ->
  (forall d0 d1, Q' d0 -> body x d0 = (Ok tt, d1) -> Q d1) ->
  x ∈ l -> Q' d -> for_each l body d = (Ok tt, d') -> Q d'.
Proof.
  intros HQ' HQ Hx. revert d.
  induction l as [|y l IH]; intros d Hin Hd Hrun; [by apply elem_of_nil in Hin|].
  simpl in Hrun. apply bind_ok_inv in Hrun as ([] & d1 & Hy & Hrest).
  assert (forall z, z ∈ l -> preserves Q' (body z)) as HQ'l
    by (intros z Hz; by apply HQ', list_elem_of_further).
  assert (forall z, z ∈ l -> preserves Q (body z)) as HQl
    by (intros z Hz; by apply HQ, list_elem_of_further).
  apply elem_of_cons in Hin as [->|Hin].
  - pose proof (preserves_for_each_in Q body l HQl d1 (Hx d d1 Hd Hy)) as H.
    by rewrite Hrest in H.
  - apply (IH HQ'l HQl d1); [done| |done].
    pose proof (HQ' y (list_elem_of_here _ _) d Hd) as H. by rewrite Hy in H.
Qed.

(** Bodies that return and keep [J] make a loop that returns. *)
Lemma for_each_returns {A} (body : A -> M unit) (J : DB -> Prop)
    (l : list A) (d : DB) :
  (forall x d0, x ∈ l -> J d0 -> exists d1, body x d0 = (Ok tt, d1) /\ J d1) ->
  J d -> exists d', for_each l body d = (Ok tt, d') /\ J d'.
Proof.
  revert d. induction l as [|x l IH]; intros d Hbody Hd; [by exists d|].
  destruct (Hbody x d (list_elem_of_here _ _) Hd) as (d1 & Hx & Hd1).
  destruct (IH d1) as (d' & Hrun & Hd'); [|done|].
  - intros y d0 Hy. by apply Hbody, list_elem_of_further.
  - exists d'. split; [|done]. simpl. by rewrite (bind_ok _ _ tt _ d1).
Qed.

(** Bodies that find their name leave the object as it is. *)
Lemma for_each_skips {A} (body : A -> M unit) (l : list A) (d : DB) :
  (forall x, x ∈ l -> body x d = (Ok tt, d)) -> for_each l body d = (Ok tt, d).
Proof.
  induction l as [|x l IH]; intros H; [done|]. simpl.
  rewrite (bind_ok _ _ tt _ d) by apply H, list_elem_of_here.
  apply IH. intros y Hy. by apply H, list_elem_of_further.
Qed.

(** What a raising body leaves, the loop leaves. *)
Lemma for_each_raises {A} (body : A -> M unit) (R : exn -> DB -> Prop)
    (l : list A) (d d' : DB) (e : exn) :
  (forall x d0 d1 e0, x ∈ l -> body x d0 = (Raise e0, d1) -> R e0 d1) ->
  for_each l body d = (Raise e, d') -> R e d'.
Proof.
  revert d. induction l as [|x l IH]; intros d Hbody Hrun; [done|].
  simpl in Hrun. unfold bind in Hrun.
  destruct (body x d) as [[[]|e0] d1] eqn:Hx.
  - apply (IH d1); [|done]. intros y d0 d2 e1 Hy. by apply Hbody, list_elem_of_further.
  - injection Hrun as <- <-.
    apply (Hbody x d d1 e0); [apply list_elem_of_here|done].
Qed.

(** *** What the steps of a discovery keep *)

Section Closed.

Variable P : DB -> Prop.
Hypothesis P_cached :
  forall items d, attrs d !! "tables" = None -> P d -> P (cached items d).

Lemma preserves_bind_name (nm tn : string) (tb : DB -> Table) :
  (forall d, attrs d !! nm = None -> (nm <> "tables" -> resolves d nm = false) ->
             P d -> P (table_names_add tn (setattr nm (tb d) d))) ->
  preserves P (bind_name nm tn tb).
Proof.
  intros Hbind d Hd.
  destruct (bind_name_cases nm tn tb d)
    as [(-> & _)|[(_ & Hun & items & ->)|[(-> & Hun & Hr)|(-> & _)]]]; simpl;
    auto.
Qed.

Lemma preserves_forget_tables :
  (forall d, P d -> P (del_tables d)) -> preserves P forget_tables.
Proof.
  intros Hdel d Hd.
  destruct (forget_tables_cases d) as [->|(-> & _)]; simpl; auto.
Qed.

Hypothesis P_history : forall h d, P d -> P (set_history h d).
Hypothesis P_bound :
  forall nm tn t d,
    lower (name t) = nm -> tn = name t \/ tn = nm ->
    attrs d !! nm = None -> (nm <> "tables" -> resolves d nm = false) ->
    P d -> P (table_names_add tn (setattr nm t d)).
Hypothesis P_del : forall d, P d -> P (del_tables d).

Lemma preserves_bind_custom_table (t : Table) : preserves P (bind_custom_table t).
Proof.
  rewrite bind_custom_table_eq. apply preserves_bind_name.
  intros d Hun Hr Hd. apply P_bound; auto.
Qed.

Lemma preserves_bind_catalog_row (row : list value) :
  preserves P (bind_catalog_row row).
Proof.
  destruct (bind_catalog_row_cases row) as [[e He]|(n & rest & ->)].
  - intros d Hd. by rewrite He.
  - rewrite bind_catalog_row_eq. apply preserves_bind_name.
    intros d Hun Hr Hd. apply P_bound; auto.
Qed.

(** A property of the DB object that each step of a discovery keeps is
    kept by [initialize_tables], whatever the engine answers and whether
    the discovery returns or raises. *)
Lemma preserves_initialize_tables : preserves P initialize_tables.
Proof.
  unfold initialize_tables, cursor_execute.
  apply preserves_bind; [by apply preserves_engine_call|]. intros rows.
  apply preserves_bind; [by intros db|]. intros custom.
  apply preserves_bind.
  { apply preserves_for_each. apply preserves_bind_custom_table. }
  intros _. apply preserves_bind.
  { apply preserves_for_each. apply preserves_bind_catalog_row. }
  intros _. apply preserves_forget_tables. apply P_del.
Qed.

End Closed.

(** *** The run of a discovery *)

Lemma initialize_tables_answered (rows : list (list value)) (db : DB) :
  respond db (history db) (Execute catalog_stmt []) = Some rows ->
  initialize_tables db
  = (for_each (default [] (custom_tables db)) bind_custom_table
       >> for_each rows bind_catalog_row >> forget_tables)
      (after [Execute catalog_stmt []] db).
Proof.
  intros H. unfold initialize_tables, cursor_execute. cbv zeta.
  unfold bind at 1. fold catalog_stmt. by rewrite (engine_call_ok _ _ _ H).
Qed.

Lemma initialize_tables_refused (db : DB) :
  respond db (history db) (Execute catalog_stmt []) = None ->
  initialize_tables db
  = (Raise StorageError, after [Execute catalog_stmt []] db).
Proof.
  intros H. unfold initialize_tables, cursor_execute, bind, engine_call.
  fold catalog_stmt. by rewrite H.
Qed.

(** A discovery that returns went through its two loops and then dropped
    what was under [tables]. *)
Lemma discovery_phases (rows : list (list value)) (db db' : DB) :
  respond db (history db) (Execute catalog_stmt []) = Some rows ->
  initialize_tables db = (Ok tt, db') ->
  exists d1 d2,
    for_each (default [] (custom_tables db)) bind_custom_table
      (after [Execute catalog_stmt []] db) = (Ok tt, d1)
    /\ for_each rows bind_catalog_row d1 = (Ok tt, d2)
    /\ db' = del_tables d2.
Proof.
  intros H Hrun. rewrite (initialize_tables_answered rows) in Hrun by done.
  apply bind_ok_inv in Hrun as ([] & d1 & H1 & Hrun).
  apply bind_ok_inv in Hrun as ([] & d2 & H2 & Hrun).
  exists d1, d2. split; [done|]. split; [done|].
  destruct (forget_tables_cases d2) as [E|(E & _)]; rewrite E in Hrun;
    [by injection Hrun as <-|done].
Qed.

Lemma discovery_answered (db db' : DB) :
  initialize_tables db = (Ok tt, db') ->
  exists rows, respond db (history db) (Execute catalog_stmt []) = Some rows.
Proof.
  intros Hrun.
  destruct (respond db (history db) (Execute catalog_stmt [])) as [rows|] eqn:E;
    [by eauto|].
  by rewrite initialize_tables_refused in Hrun.
Qed.

(** After a discovery that returned, nothing is bound to [tables]. *)
Lemma discovery_forgets_tables (db db' : DB) :
  initialize_tables db = (Ok tt, db') -> attrs db' !! "tables" = None.
Proof.
  intros Hrun. destruct (discovery_answered _ _ Hrun) as [rows Hrows].
  destruct (discovery_phases rows db db' Hrows Hrun) as (d1 & d2 & _ & _ & ->).
  apply lookup_delete_eq.
Qed.

(** *** When the discovery returns *)

Lemma tables_safe_bind_name (nm tn : string) (tb : DB -> Table) (d : DB) :
  (tn = "tables" -> nm = "tables") ->
  tables_safe d ->
  exists d', bind_name nm tn tb d = (Ok tt, d') /\ tables_safe d'.
Proof.
  intros Htn Hd.
  destruct (bind_name_cases nm tn tb d)
    as [(E & _)|[(_ & Hun & items & E)|[(E & Hun & Hr)|(_ & _ & Hun & Hin)]]].
  - by exists d.
  - exists (cached items d). split; [done|]. intros _.
    cbn [cached set_attrs attrs]. rewrite lookup_insert_eq. by eauto.
  - eexists. split; [exact E|]. intros Hin.
    cbn [table_names_add setattr set_table_names set_attrs attrs table_names] in *.
    destruct (decide (nm = "tables")) as [->|Hne].
    + rewrite lookup_insert_eq. by eauto.
    + rewrite lookup_insert_ne by done. apply Hd.
      apply elem_of_union in Hin as [Hin|Hin]; [|done].
      apply elem_of_singleton in Hin. by destruct Hne; apply Htn.
  - apply Hd in Hin as [a Ha]. congruence.
Qed.

Lemma lower_tables (s : string) : s = "tables" -> lower s = "tables".
Proof. by intros ->. Qed.

(** A discovery returns whenever the engine answers the catalog query
    with names and the [tables] property cannot be led back into itself
    when it starts, which is the case on a new object. *)
Lemma discovery_returns (names : list string) (db : DB) :
  respond db (history db) (Execute catalog_stmt [])
    = Some (map (fun n => [VStr n]) names) ->
  tables_safe db ->
  exists db', initialize_tables db = (Ok tt, db').
Proof.
  intros H Hsafe. rewrite (initialize_tables_answered _ _ H).
  destruct (for_each_returns bind_custom_table tables_safe
              (default [] (custom_tables db)) (after [Execute catalog_stmt []] db))
    as (d1 & H1 & Hd1); [|done|].
  { intros t d0 _ Hd0. rewrite bind_custom_table_eq.
    apply tables_safe_bind_name; [apply lower_tables|done]. }
  destruct (for_each_returns bind_catalog_row tables_safe
              (map (fun n => [VStr n]) names) d1) as (d2 & H2 & Hd2); [|done|].
  { intros row d0 Hrow Hd0. apply list_elem_of_fmap in Hrow as (n & -> & _).
    rewrite bind_catalog_row_eq. by apply tables_safe_bind_name. }
  exists (del_tables d2).
  rewrite (bind_ok _ _ tt _ d1) by done. rewrite (bind_ok _ _ tt _ d2) by done.
  destruct (forget_tables_cases d2) as [E|(_ & Hun & Hin)]; [done|].
  apply Hd2 in Hin as [a Ha]. congruence.
Qed.

(** *** Two discoveries in a row *)

(** C5, at the failing input: a class that declares the custom tables
    [Tables] and [Notes], over a database without tables.  The
    constructor runs the discovery once and a second discovery follows,
    the catalog being the same.  The first run takes the [tables]
    property for the table [Tables], which it does not bind, and lists
    [Notes] alone; the second run finds that [hasattr(self, "tables")]
    is false, [Notes] being a table name that is no attribute, and so
    lists [Tables] as well: the two registries differ in their table
    names.  With the custom table [Notes] over a database that holds a
    table [tables], the first run lists [tables]; when the iteration of
    the table names then meets [tables] before [Notes], the second run
    does not return: it raises RecursionError. *)
Theorem second_discovery_changes_the_registry :
  (exists db1 db2,
      DB__init__ (Some (fun _ _ => Some [])) false (Some two_custom) (fun _ => [])
        = Ok db1
      /\ initialize_tables db1 = (Ok tt, db2)
      /\ table_names db1 = {["Notes"]}
      /\ table_names db2 = {["Tables"; "Notes"]}
      /\ table_names db2 <> table_names db1)
  /\ (exists db1,
        DB__init__ (Some (fun _ _ => Some [[VStr "tables"]])) false
          (Some [mkTable "Notes" ["id"] false false]) (fun _ => ["tables"])
          = Ok db1
        /\ table_names db1 = {["tables"; "Notes"]}
        /\ fst (initialize_tables db1) = Raise RecursionError).
Proof.
  split.
  - eexists _, _. split; [by vm_compute|]. split; [by vm_compute|].
    split; [by vm_compute|]. split; [by vm_compute|].
    intros H. apply (f_equal (fun s => bool_decide ("Tables" ∈ s))) in H.
    vm_compute in H. discriminate.
  - eexists. split; [by vm_compute|]. split; by vm_compute.
Qed.

(** ** CreateTable *)

Lemma accepted_two (db : DB) (c1 c2 : call) :
  accepted db [c1; c2] = true ->
  exists r1 r2, respond db (history db) c1 = Some r1
             /\ respond db (history db ++ [c1])%list c2 = Some r2.
Proof.
  simpl. destruct (respond db (history db) c1); [|done].
  destruct (respond db (history db ++ [c1])%list c2); [|done]. eauto.
Qed.

(** A statement and a commit that the engine takes, then a discovery. *)
Lemma statement_commit_discovery (text : string) (db : DB) :
  accepted db [Execute text []; Commit] = true ->
  (cursor_execute text [] >> db_commit >> initialize_tables) db
    = initialize_tables (after [Execute text []; Commit] db).
Proof.
  intros Hacc. apply accepted_two in Hacc as (r1 & r2 & Hr1 & Hr2).
  rewrite (bind_ok _ _ r1 _ (after [Execute text []] db))
    by (by apply engine_call_ok).
  rewrite (bind_ok _ _ tt _ (after [Execute text []; Commit] db)); [done|].
  unfold db_commit.
  rewrite (bind_ok _ _ r2 _ (after [Execute text []; Commit] db)); [done|].
  rewrite (engine_call_ok _ r2) by done. by rewrite after_after.
Qed.

Lemma all_items_str (texts : list string) :
  forallb CreateTable.is_str (map CreateTable.ItemStr texts) = true
  /\ map CreateTable.item_text (map CreateTable.ItemStr texts) = texts.
Proof. induction texts as [|s l [IH1 IH2]]; simpl; [done|]. by rewrite IH2. Qed.

Lemma all_values_descriptors (descs : pydict BaseType) :
  let m := map (fun kv => (fst kv, CreateTable.Descriptor (snd kv))) descs in
  forallb CreateTable.is_BaseType (map snd m) = true
  /\ map (fun kv => fst kv ++ " " ++ CreateTable.descriptor_text (snd kv)) m
     = map (fun kv => fst kv ++ " " ++ render (snd kv)) descs.
Proof.
  induction descs as [|[k d] l [IH1 IH2]]; simpl; [done|].
  simpl in IH2. by rewrite IH2.
Qed.

Lemma some_value_not_descriptor (m : pydict CreateTable.descriptor) (key : string) :
  (key, CreateTable.NotDescriptor) ∈ m ->
  forallb CreateTable.is_BaseType (map snd m) = false.
Proof.
  induction m as [|[k d] m IH]; intros H; [by apply elem_of_nil in H|].
  apply elem_of_cons in H as [H|H].
  - by injection H as <- <-.
  - simpl. rewrite IH by done. apply andb_false_r.
Qed.

(** C9, at the failing inputs: on a new DB object over a database
    without tables, [create_table("path", ["id INTEGER"])].  The engine
    takes the statement and the commit, and the catalog then lists the
    table [path]; the call returns without raising, the calls made being
    the statement, the commit and the catalog query of the discovery.
    And yet nothing is bound to [path] on the object, where the name is
    still the path of the database file, and no table name was added:
    the new table is not addressable.  The same happens with a table
    named [tables], the name of the property of the class. *)
Theorem created_table_is_not_addressable :
  (exists db db',
      DB__init__ (Some (engine_creating "path")) false None (fun _ => []) = Ok db
      /\ CreateTable.__call__ "path"
           (CreateTable.ColSequence [CreateTable.ItemStr "id INTEGER"]) None true db
         = (Ok tt, db')
      /\ history db'
         = [Execute catalog_stmt [];
            Execute "CREATE TABLE IF NOT EXISTS path(id INTEGER)" []; Commit;
            Execute catalog_stmt []]
      /\ attrs db' !! "path" = None
      /\ table_names db' = ∅)
  /\ (exists db db',
        DB__init__ (Some (engine_creating "tables")) false None (fun _ => [])
          = Ok db
        /\ CreateTable.__call__ "tables"
             (CreateTable.ColSequence [CreateTable.ItemStr "id INTEGER"]) None true
             db
           = (Ok tt, db')
        /\ attrs db' !! "tables" = None
        /\ table_names db' = ∅).
Proof.
  split.
  - eexists _, _. repeat split; by vm_compute.
  - eexists _, _. repeat split; by vm_compute.
Qed.

(** * Further properties of the code *)

(** ** The clause builder *)

Lemma append_empty (a b : string) : a ++ b = "" -> a = "" /\ b = "".
Proof. destruct a; [done|]. intros H. discriminate (f_equal String.length H). Qed.

Lemma clause_not_empty (wp : bool) (kv : string * value) :
  (if wp then literal_clause else parameter_clause) kv <> "".
Proof.
  destruct kv as [key v]. intros H.
  assert (exists rest, (if wp then literal_clause else parameter_clause) (key, v)
                       = key ++ String " " rest) as [rest E].
  { destruct wp, v as [|n|[]|s]; simpl; eexists; reflexivity. }
  rewrite E in H. by apply append_empty in H as [_ H].
Qed.

Lemma join_not_empty (sep c : string) (rest : list string) :
  c <> "" -> join sep (c :: rest) <> "".
Proof.
  intros Hc H. unfold join in H. simpl in H. destruct rest; [done|].
  by apply append_empty in H as [H _].
Qed.

(** X1: the text a clause builder returns is empty exactly when the
    mapping is empty, in both modes. *)
Theorem clause_text_empty_iff_no_entry
    (data : TQueryData) (op : string) (wp : bool) (s : string) :
  TableOperation._make_operator_query data op wp = Ok s ->
  (s = "" <-> data = []).
Proof.
  intros Hs.
  destruct (decide (lower op ∈ ["and"; "or"; ","])) as [Hin|Hout];
    [|by rewrite builder_raise in Hs].
  rewrite builder_ok in Hs by done. injection Hs as <-.
  destruct data as [|kv data]; [done|]. split; [|done].
  intros H. exfalso. revert H. cbn [map]. apply join_not_empty, clause_not_empty.
Qed.

Lemma clause_text_empty_iff_no_entry_witness :
  "id = 3" = "" <-> [("id", VInt 3)] = [].
Proof.
  apply (clause_text_empty_iff_no_entry [("id", VInt 3)] "AND" true).
  reflexivity.
Defined.

Lemma parameter_clauses_ignore_values (data1 data2 : TQueryData) :
  map fst data1 = map fst data2 ->
  map (fun kv => is_none (snd kv)) data1 = map (fun kv => is_none (snd kv)) data2 ->
  map parameter_clause data1 = map parameter_clause data2.
Proof.
  revert data2. induction data1 as [|[k1 v1] d1 IH]; intros [|[k2 v2] d2];
    simpl; intros Hk Hn; try discriminate; [done|].
  injection Hk as -> Hk. injection Hn as Hv Hn. rewrite (IH d2) by done.
  f_equal. by destruct v1, v2.
Qed.

(** X2: in the parameterized mode no value reaches the text: two mappings
    with the same keys in the same order, and None at the same places,
    get the same answer from the builder. *)
Theorem parameterized_text_holds_no_value
    (data1 data2 : TQueryData) (op : string) :
  map fst data1 = map fst data2 ->
  map (fun kv => is_none (snd kv)) data1 = map (fun kv => is_none (snd kv)) data2 ->
  TableOperation._make_operator_query data1 op false
  = TableOperation._make_operator_query data2 op false.
Proof.
  intros Hk Hn. unfold TableOperation._make_operator_query.
  destruct (negb _); [done|]. cbn [negb].
  by rewrite (parameter_clauses_ignore_values data1 data2).
Qed.

Lemma parameterized_text_holds_no_value_witness :
  TableOperation._make_operator_query
    [("name", VStr "x' OR '1' = '1"); ("age", VNone)] "and" false
  = TableOperation._make_operator_query
    [("name", VInt 7); ("age", VNone)] "and" false.
Proof.
  apply (parameterized_text_holds_no_value
           [("name", VStr "x' OR '1' = '1"); ("age", VNone)]
           [("name", VInt 7); ("age", VNone)] "and"); reflexivity.
Defined.

(** ** Select *)

(** What [_execute] does, by the engine's answer. *)
Lemma select_execute_cases (table : Table) q p (size : Z) (db : DB) :
  Select._execute table q p size db
  = match respond db (history db) (Execute q p) with
    | None => (Raise StorageError, after [Execute q p] db)
    | Some rows =>
        (match (if size =? 0 then Ok rows else fetchmany size rows) with
         | Ok result => Select._as_list_row table result
         | Raise e => Raise e
         end,
         after [Execute q p] db)
    end.
Proof.
  unfold Select._execute, cursor_execute, bind, engine_call, lift, fetchall.
  destruct (size =? 0); cbn [negb];
    destruct (respond db (history db) (Execute q p)); try reflexivity.
  by destruct (fetchmany size l).
Qed.

(** X3: with keyword filters, an operator that is no spelling of AND, OR
    or the comma makes Select raise the ValueError before any call on the
    connection; without filters the operator is not looked at. *)
Theorem select_checks_operator_only_with_filters
    (table : Table) (size : Z) (op op' : string) (filter_by : TQueryData)
    (db : DB) :
  (filter_by <> [] -> op ∉ operator_spellings ->
   Select.__call__ table size op filter_by db
     = (Raise (ValueError "Incorrect operator."), db))
  /\ Select.__call__ table size op [] db = Select.__call__ table size op' [] db.
Proof.
  split; [|reflexivity]. intros Hf Hop. unfold Select.__call__, Select._filter.
  destruct filter_by as [|f filter_by]; [done|]. cbn [truthy].
  rewrite <- lower_supported in Hop. by rewrite builder_raise.
Qed.

Lemma select_checks_operator_only_with_filters_witness :
  Select.__call__ example_table 0 "xor" [("id", VInt 1)] example_db
    = (Raise (ValueError "Incorrect operator."), example_db).
Proof.
  apply (select_checks_operator_only_with_filters example_table 0 "xor" "AND"
           [("id", VInt 1)] example_db); [discriminate|compute_done].
Defined.

(** X4: Select only reads: whatever its arguments and the engine's
    answer, it leaves the DB object as it was or with one more call in
    the history, an [execute] whose parameters are the filters; it makes
    no [executemany] and no commit. *)
Theorem select_makes_at_most_one_execute
    (table : Table) (size : Z) (op : string) (filter_by : TQueryData) (db : DB) :
  let db' := snd (Select.__call__ table size op filter_by db) in
  db' = db \/ exists text, db' = after [Execute text filter_by] db.
Proof.
  cbv zeta. unfold Select.__call__, Select._filter.
  destruct filter_by as [|f filter_by]; cbn [truthy].
  - right. eexists. rewrite select_execute_cases.
    by destruct (respond db (history db) _).
  - destruct (TableOperation._make_operator_query _ op false) as [w|e];
      [|by left].
    right. eexists. rewrite bind_lift_ok, select_execute_cases.
    by destruct (respond db (history db) _).
Qed.

(** X5: with a positive size, Select never returns more rows than the
    size. *)
Theorem select_returns_at_most_size_rows
    (table : Table) (size : Z) (op : string) (filter_by : TQueryData)
    (db db' : DB) (found : list Row) :
  0 < size ->
  Select.__call__ table size op filter_by db = (Ok found, db') ->
  Z.of_nat (length found) <= size.
Proof.
  intros Hsize H.
  assert (forall q p, Select._execute table q p size db = (Ok found, db') ->
                      Z.of_nat (length found) <= size) as Hexec.
  { intros q p He. rewrite select_execute_cases in He.
    destruct (respond db (history db) (Execute q p)) as [rows|]; [|done].
    replace (size =? 0) with false in He by (symmetry; apply Z.eqb_neq; lia).
    unfold fetchmany in He.
    replace (0 <? size) with true in He by (symmetry; by apply Z.ltb_lt).
    destruct (_ || _); [done|]. injection He as He _.
    apply comprehension_length in He. rewrite He, length_take. lia. }
  unfold Select.__call__, Select._filter in H. destruct (truthy filter_by).
  - destruct (TableOperation._make_operator_query _ op false) as [w|e];
      [|done].
    rewrite bind_lift_ok in H. by eapply Hexec.
  - by eapply Hexec.
Qed.

Lemma select_returns_at_most_size_rows_witness :
  Z.of_nat (length [mkRow example_table ∅ [("id", VInt 1); ("name", VStr "a")];
                    mkRow example_table ∅ [("id", VInt 2); ("name", VNone)]]) <= 2.
Proof.
  apply (select_returns_at_most_size_rows example_table 2 "AND" [] example_db
           (after [Execute "SELECT * FROM t" []] example_db)); [lia|reflexivity].
Defined.

Lemma dict_get_zip (cols : list string) (item : list value) (i : nat)
    (c : string) (v missing : value) :
  NoDup cols -> cols !! i = Some c -> item !! i = Some v ->
  dict_get c (zip cols item) missing = v.
Proof.
  revert item i. induction cols as [|c0 cols IH]; intros [|v0 item] i Hnd Hc Hv;
    try done.
  apply NoDup_cons in Hnd as [Hc0 Hnd]. destruct i as [|i]; simpl in *.
  - injection Hc as ->. injection Hv as ->. by rewrite String.eqb_refl.
  - destruct (String.eqb c c0) eqn:E.
    + apply String.eqb_eq in E as ->. destruct Hc0.
      by apply list_elem_of_lookup_2 in Hc.
    + by apply (IH item i).
Qed.

(** X6: with distinct column names, the Row made from a result tuple
    gives back, under the name of the i-th column, the i-th value of the
    tuple. *)
Theorem row_reads_back_tuple_value
    (table : Table) (items : list (list value)) (found : list Row)
    (j i : nat) (row : Row) (item : list value) (c : string) (v missing : value) :
  NoDup (column_names table) ->
  Select._as_list_row table items = Ok found ->
  found !! j = Some row -> items !! j = Some item ->
  column_names table !! i = Some c -> item !! i = Some v ->
  dict_get c (row_values row) missing = v.
Proof.
  intros Hnd Hfound Hrow Hitem Hc Hv. unfold Select._as_list_row in Hfound.
  destruct (comprehension_lookup _ _ _ _ _ Hfound Hrow) as (item' & Hitem' & Hf).
  rewrite Hitem in Hitem'. injection Hitem' as <-.
  unfold row_cls in Hf. destruct (find _ _); [done|]. injection Hf as <-.
  cbn [row_values]. rewrite dict_of_zip_distinct by done.
  by apply (dict_get_zip _ _ i).
Qed.

Lemma row_reads_back_tuple_value_witness :
  dict_get "name" (row_values (mkRow example_table ∅ [("id", VInt 2); ("name", VStr "b")]))
    VNone = VStr "b".
Proof.
  apply (row_reads_back_tuple_value example_table
           [[VInt 1; VStr "a"]; [VInt 2; VStr "b"]]
           [mkRow example_table ∅ [("id", VInt 1); ("name", VStr "a")];
            mkRow example_table ∅ [("id", VInt 2); ("name", VStr "b")]]
           1%nat 1%nat _ [VInt 2; VStr "b"]); try reflexivity.
  compute_done.
Defined.

Lemma dict_set_keys_back {V} (key : string) (v : V) (d : pydict V) (x : string) :
  x = key \/ x ∈ map fst d -> x ∈ map fst (dict_set key v d).
Proof.
  induction d as [|[k w] d IH]; simpl.
  - intros [->|H]; [apply list_elem_of_here|by apply elem_of_nil in H].
  - destruct (String.eqb key k) eqn:E; simpl.
    + apply String.eqb_eq in E as ->. intros [->|H]; [apply list_elem_of_here|done].
    + intros [->|H].
      * apply list_elem_of_further, IH. by left.
      * apply elem_of_cons in H as [->|H]; [apply list_elem_of_here|].
        apply list_elem_of_further, IH. by right.
Qed.

Lemma fold_dict_set_keys_back {V} (pairs : list (string * V)) (acc : pydict V)
    (x : string) :
  x ∈ map fst acc \/ x ∈ map fst pairs ->
  x ∈ map fst (fold_left (fun d kv => dict_set (fst kv) (snd kv) d) pairs acc).
Proof.
  revert acc. induction pairs as [|[k v] pairs IH]; simpl; intros acc H.
  - destruct H as [H|H]; [done|by apply elem_of_nil in H].
  - apply IH. destruct H as [H|H].
    + left. apply dict_set_keys_back. by right.
    + apply elem_of_cons in H as [->|H]; [|by right].
      left. apply dict_set_keys_back. by left.
Qed.

Lemma zip_keys_take {B} (xs : list string) (ys : list B) :
  map fst (zip xs ys) = take (length ys) xs.
Proof.
  revert ys. induction xs as [|x xs IH]; intros [|y ys]; simpl; try done.
  by rewrite IH.
Qed.

(** The keys [row_cls] gets are the columns that met a value. *)
Lemma kwargs_keys_iff (cols : list string) (item : list value) (x : string) :
  x ∈ map fst (dict_of (zip cols item)) <-> x ∈ take (length item) cols.
Proof.
  rewrite <- zip_keys_take. split.
  - intros H. apply fold_dict_set_keys in H as [H|H]; [|done].
    by apply elem_of_nil in H.
  - intros H. apply fold_dict_set_keys_back. by right.
Qed.

Lemma row_cls_refuses (table : Table) (changed : gset string)
    (kwargs : pydict value) (c : string) :
  c ∈ map fst kwargs -> c ∈ row_keywords ->
  exists c', c' ∈ row_keywords
             /\ row_cls table changed kwargs = Raise (RepeatedKeyword c').
Proof.
  intros Hc Hkw. unfold row_cls.
  destruct (find _ kwargs) as [[k v]|] eqn:E.
  - apply find_some in E as [_ Hk]. cbv beta iota delta [fst] in Hk. exists k. split; [|done].
    apply orb_true_iff in Hk as [Hk|Hk]; apply String.eqb_eq in Hk as ->;
      compute_done.
  - exfalso. apply list_elem_of_fmap in Hc as ([k v] & -> & Hin).
    apply list_elem_of_In in Hin.
    pose proof (find_none _ _ E _ Hin) as Hk. cbv beta iota delta [fst] in Hk.
    unfold row_keywords in Hkw. cbv beta iota delta [fst] in Hkw.
    apply elem_of_cons in Hkw as [Hkw|Hkw]; [by subst k|].
    apply list_elem_of_singleton in Hkw. subst k. by rewrite orb_true_r in Hk.
Qed.

(** X7: wrapping result tuples into Rows raises whenever some tuple
    reaches, by its length, a column named [table] or [changed_columns]:
    the call of the row class then gives that keyword twice, and what is
    raised names one of the two keywords.  A tuple too short to reach
    such a column is not concerned, so on such a table an empty result
    is still returned as the empty list. *)
Theorem rows_refused_when_keyword_column_reached
    (table : Table) (items : list (list value)) (item : list value) (c : string) :
  item ∈ items ->
  c ∈ take (length item) (column_names table) ->
  c ∈ row_keywords ->
  (exists c', c' ∈ row_keywords
              /\ Select._as_list_row table items = Raise (RepeatedKeyword c'))
  /\ Select._as_list_row table [] = Ok [].
Proof.
  intros Hitem Hc Hkw. split; [|reflexivity]. unfold Select._as_list_row.
  destruct (comprehension_raise_first
              (fun item => row_cls table ∅ (dict_of (zip (column_names table) item)))
              items item
              (fun e => exists c', c' ∈ row_keywords /\ e = RepeatedKeyword c'))
    as (e & He & c' & Hc' & ->); [done| | |by exists c'].
  - destruct (row_cls_refuses table ∅ (dict_of (zip (column_names table) item)) c)
      as (c' & _ & Hr); [by apply kwargs_keys_iff|done|by eauto].
  - intros y e _ Hy. unfold row_cls in Hy.
    destruct (find _ _) as [[k v]|] eqn:E; [|done]. injection Hy as <-.
    apply find_some in E as [_ Hk]. cbv beta iota delta [fst] in Hk. exists k. split; [|done].
    apply orb_true_iff in Hk as [Hk|Hk]; apply String.eqb_eq in Hk as ->;
      compute_done.
Qed.

Lemma rows_refused_when_keyword_column_reached_witness :
  (exists c', c' ∈ row_keywords
              /\ Select._as_list_row (mkTable "t" ["id"; "table"] false true)
                   [[VInt 1]; [VInt 2; VStr "x"]] = Raise (RepeatedKeyword c'))
  /\ Select._as_list_row (mkTable "t" ["id"; "table"] false true) [] = Ok [].
Proof.
  apply (rows_refused_when_keyword_column_reached
           (mkTable "t" ["id"; "table"] false true) [[VInt 1]; [VInt 2; VStr "x"]]
           [VInt 2; VStr "x"] "table"); compute_done.
Defined.

(** ** Insert *)

Lemma prepared_row_ext (table : Table) (d1 d2 : TQueryData) :
  (forall c, c ∈ column_names table -> dict_get c d1 VNone = dict_get c d2 VNone) ->
  Insert._prepare_input_data table d1 = Insert._prepare_input_data table d2.
Proof.
  intros H. unfold Insert._prepare_input_data.
  induction (column_names table) as [|c cs IH]; [done|]. simpl.
  rewrite H by apply list_elem_of_here. f_equal. apply IH.
  intros c' Hc'. apply H. by apply list_elem_of_further.
Qed.

(** X8: Insert reads a mapping only at the column names: two lists of
    mappings that agree, pair by pair, on every column of the table make
    Insert do the same thing, whatever else they hold. *)
Theorem insert_reads_only_the_columns
    (table : Table) (ds1 ds2 : list TQueryData) (db : DB) :
  Forall2 (fun d1 d2 => forall c, c ∈ column_names table ->
                          dict_get c d1 VNone = dict_get c d2 VNone) ds1 ds2 ->
  Insert.__call__ table (Insert.Many ds1) db
  = Insert.__call__ table (Insert.Many ds2) db.
Proof.
  intros H. unfold Insert.__call__.
  assert (map (Insert._prepare_input_data table) ds1
          = map (Insert._prepare_input_data table) ds2) as E.
  { revert ds2 H. induction ds1 as [|d1 l1 IH]; intros [|d2 l2] H;
      try by inversion H.
    apply Forall2_cons in H as [Hd H]. simpl.
    by rewrite (IH l2), (prepared_row_ext table d1 d2). }
  by rewrite E.
Qed.

Lemma insert_reads_only_the_columns_witness :
  Insert.__call__ example_table
    (Insert.Many [[("id", VInt 1); ("colour", VStr "red")]]) example_db
  = Insert.__call__ example_table
    (Insert.Many [[("id", VInt 1); ("name", VNone)]]) example_db.
Proof.
  apply (insert_reads_only_the_columns example_table
           [[("id", VInt 1); ("colour", VStr "red")]]
           [[("id", VInt 1); ("name", VNone)]] example_db).
  constructor; [|constructor]. intros c Hc.
  apply elem_of_cons in Hc as [->|Hc]; [reflexivity|].
  apply elem_of_cons in Hc as [->|Hc]; [reflexivity|].
  by apply elem_of_nil in Hc.
Defined.

Lemma map_const_replicate {A B} (b : B) (l : list A) :
  map (fun _ => b) l = replicate (length l) b.
Proof. induction l as [|x l IH]; simpl; [done|]. by rewrite IH. Qed.

Lemma prepared_row_length (table : Table) (d : TQueryData) :
  length (Insert._prepare_input_data table d) = length (column_names table).
Proof. unfold Insert._prepare_input_data. apply length_map. Qed.

Lemma prepared_rows_truthy (table : Table) (ds : list TQueryData) :
  column_names table <> [] ->
  forallb truthy (map (Insert._prepare_input_data table) ds) = true.
Proof.
  intros H. induction ds as [|d ds IH]; [done|]. simpl. rewrite IH.
  unfold Insert._prepare_input_data. by destruct (column_names table).
Qed.

(** X9: on a table with at least one column, Insert of a non-empty list
    of mappings makes one [executemany] for the whole list: one row per
    mapping, each with one value per column, under a statement with one
    [?] per column; at most a commit follows, and when the engine takes
    both calls nothing is raised.  Insert of an empty list raises
    IndexError without any call. *)
Theorem insert_sends_one_batch
    (table : Table) (ds : list TQueryData) (db : DB) :
  column_names table <> [] ->
  let rows := map (Insert._prepare_input_data table) ds in
  let text := "INSERT INTO " ++ name table ++ " VALUES("
                ++ join ", " (replicate (length (column_names table)) "?")
                ++ ")" in
  (ds = [] -> Insert.__call__ table (Insert.Many ds) db = (Raise IndexError, db))
  /\ (ds <> [] ->
      length rows = length ds
      /\ Forall (fun row => length row = length (column_names table)) rows
      /\ (exists r rest,
             Insert.__call__ table (Insert.Many ds) db
               = (r, after (ExecuteMany text rows :: rest) db)
             /\ (rest = [] \/ rest = [Commit]))
      /\ (accepted db [ExecuteMany text rows; Commit] = true ->
            Insert.__call__ table (Insert.Many ds) db
              = (Ok tt, after [ExecuteMany text rows; Commit] db))).
Proof.
  intros Hcols. cbv zeta. split; [by intros ->|]. intros Hds.
  split; [apply length_map|]. split.
  { apply Forall_forall. intros row Hrow.
    apply list_elem_of_fmap in Hrow as (d & -> & _). apply prepared_row_length. }
  unfold Insert.__call__, Insert.query.
  rewrite prepared_rows_truthy by done. cbn [negb].
  destruct ds as [|d ds]; [done|]. cbn [map].
  rewrite map_const_replicate, prepared_row_length.
  apply executemany_then_commit.
Qed.

Lemma insert_sends_one_batch_witness :
  Insert.__call__ example_table
    (Insert.Many [[("id", VInt 1)]; [("name", VStr "b"); ("id", VInt 2)]]) example_db
  = (Ok tt,
     after [ExecuteMany "INSERT INTO t VALUES(?, ?)"
              [[VInt 1; VNone]; [VInt 2; VStr "b"]]; Commit] example_db).
Proof.
  destruct (insert_sends_one_batch example_table
              [[("id", VInt 1)]; [("name", VStr "b"); ("id", VInt 2)]] example_db)
    as [_ H]; [discriminate|].
  destruct H as (_ & _ & _ & H); [discriminate|]. by apply H.
Defined.

(** ** Delete *)

Lemma after_inj (cs1 cs2 : list call) (db : DB) :
  after cs1 db = after cs2 db -> cs1 = cs2.
Proof.
  intros H. apply (f_equal history) in H. simpl in H. by apply app_inv_head in H.
Qed.

Lemma id_rows_inj (ids1 ids2 : list Z) :
  map (fun n => [VStr (str (VInt n))]) ids1
  = map (fun n => [VStr (str (VInt n))]) ids2 ->
  ids1 = ids2.
Proof.
  revert ids2. induction ids1 as [|a l IH]; intros [|b k] H; try done.
  simpl in H. injection H as Hab H. f_equal; [|by apply IH].
  by apply (inj pretty).
Qed.

(** X10: the calls a batch delete makes tell the ids apart: on the same
    DB object, two lists of ids that leave the same history are the same
    list, so no two different ids are ever bound as the same string. *)
Theorem delete_batches_differ_with_ids
    (table : Table) (ids1 ids2 : list Z) (f1 f2 : TQueryData) (db : DB) :
  snd (Delete.__call__ table (Delete.IdIterable ids1) f1 db)
  = snd (Delete.__call__ table (Delete.IdIterable ids2) f2 db) ->
  ids1 = ids2.
Proof.
  unfold Delete.__call__.
  destruct (executemany_then_commit (Delete.query table)
              (map (fun n => [VStr (str (VInt n))]) ids1) db)
    as [(r1 & rest1 & -> & _) _].
  destruct (executemany_then_commit (Delete.query table)
              (map (fun n => [VStr (str (VInt n))]) ids2) db)
    as [(r2 & rest2 & -> & _) _].
  simpl. intros H. apply after_inj in H. injection H as H _.
  by apply id_rows_inj.
Qed.

Lemma delete_batches_differ_with_ids_witness : [1; -2] = [1; -2].
Proof.
  apply (delete_batches_differ_with_ids example_table [1; -2] [1; -2]
           [("name", VStr "x")] [] example_db).
  reflexivity.
Defined.

Lemma dict_get_set_eq {V} (key : string) (v missing : V) (d : pydict V) :
  dict_get key (dict_set key v d) missing = v.
Proof.
  induction d as [|[k w] d IH]; simpl; [by rewrite String.eqb_refl|].
  destruct (String.eqb key k) eqn:E; simpl; by rewrite E.
Qed.

Lemma dict_get_set_ne {V} (key key' : string) (v missing : V) (d : pydict V) :
  key' <> key ->
  dict_get key' (dict_set key v d) missing = dict_get key' d missing.
Proof.
  intros Hne. induction d as [|[k w] d IH]; simpl.
  - by apply String.eqb_neq in Hne as ->.
  - destruct (String.eqb key k) eqn:E; simpl; [|by rewrite IH].
    apply String.eqb_eq in E as ->. by apply String.eqb_neq in Hne as ->.
Qed.

(** X11: Delete with an int id, 0 included, runs one statement whose
    parameters bind [id] to that int and every other key as the keyword
    filters have it; with no filter named [id] the id is the last
    entry, so its clause is the last of the WHERE clause. *)
Theorem delete_by_id_binds_the_id
    (table : Table) (n : Z) (filter_by : TQueryData) (db : DB) :
  let parameters := dict_set "id" (VInt n) filter_by in
  (forall missing, dict_get "id" parameters missing = VInt n)
  /\ (forall key missing, key <> "id" ->
        dict_get key parameters missing = dict_get key filter_by missing)
  /\ ("id" ∉ map fst filter_by ->
        parameters = (filter_by ++ [("id", VInt n)])%list)
  /\ exists text r rest,
       Delete.__call__ table (Delete.IdInt n) filter_by db
         = (r, after (Execute text parameters :: rest) db).
Proof.
  cbv zeta. split; [intros m; apply dict_get_set_eq|].
  split; [intros key m Hk; by apply dict_get_set_ne|].
  split; [apply dict_set_fresh|].
  destruct (delete_filter_runs table (dict_set "id" (VInt n) filter_by) db
              (dict_set_nonempty _ _ _)) as [(r & rest & H & _) _].
  by eexists _, r, rest.
Qed.

Lemma delete_by_id_binds_the_id_witness :
  dict_set "id" (VInt 0) [("name", VStr "x")] = [("name", VStr "x"); ("id", VInt 0)].
Proof.
  destruct (delete_by_id_binds_the_id example_table 0 [("name", VStr "x")]
              example_db) as (_ & _ & H & _).
  apply H. compute_done.
Defined.

(** ** CreateTable *)

Lemma some_item_not_str (items : list CreateTable.item) :
  CreateTable.ItemOther ∈ items -> forallb CreateTable.is_str items = false.
Proof.
  induction items as [|i items IH]; intros H; [by apply elem_of_nil in H|].
  apply elem_of_cons in H as [<-|H]; [done|].
  simpl. rewrite IH by done. apply andb_false_r.
Qed.

(** X12: CreateTable raises the TypeError "Incorrect type for column
    item" for a sequence with an element that is not a string, before
    any call on the connection. *)
Theorem create_table_rejects_non_string_item
    (table_name : string) (items : list CreateTable.item)
    (table_primary_key : option (list string)) (if_not_exists : bool) (db : DB) :
  CreateTable.ItemOther ∈ items ->
  CreateTable.__call__ table_name (CreateTable.ColSequence items)
      table_primary_key if_not_exists db
    = (Raise (TypeError "Incorrect type for column item"), db).
Proof.
  intros H. unfold CreateTable.__call__.
  cbn [CreateTable.is_Sequence CreateTable.is_MutableMapping orb negb andb
       CreateTable.elements].
  by rewrite (some_item_not_str _ H).
Qed.

Lemma create_table_rejects_non_string_item_witness :
  CreateTable.__call__ "t"
      (CreateTable.ColSequence [CreateTable.ItemStr "id INTEGER"; CreateTable.ItemOther])
      (Some ["id"]) true folder_db
    = (Raise (TypeError "Incorrect type for column item"), folder_db).
Proof.
  apply (create_table_rejects_non_string_item "t"
           [CreateTable.ItemStr "id INTEGER"; CreateTable.ItemOther]
           (Some ["id"]) true folder_db).
  apply list_elem_of_further, list_elem_of_here.
Defined.

(** ** A connection that refuses the call *)

Lemma stops_unchanged {A} (r : result A) (db : DB) :
  stops_at_first_call (r, db) db.
Proof. by left. Qed.

Lemma stops_refused {B} (c : call) (k : list (list value) -> M B) (db : DB) :
  respond db (history db) c = None ->
  stops_at_first_call (bind (engine_call c) k db) db.
Proof.
  intros H. right. unfold bind, engine_call. rewrite H. simpl. by eauto.
Qed.

Lemma stops_refused_statement {B} (c : call) (k : unit -> M B) (db : DB) :
  respond db (history db) c = None ->
  stops_at_first_call (bind (engine_call c >> ret tt) k db) db.
Proof.
  intros H. right. unfold bind, engine_call. rewrite H. simpl. by eauto.
Qed.

(** X13: when the engine refuses whatever call comes next, each
    operation either ends before any call (a check of its arguments, or
    the skip of Insert) and leaves the DB object as it was, or makes one
    call and raises its StorageError; in neither case is there a second
    call, so no commit and no discovery follow a refused statement, and
    the attributes and table names stay as they were. *)
Theorem refused_call_ends_the_operation (db : DB) :
  (forall c, respond db (history db) c = None) ->
  (forall table size op filter_by,
      stops_at_first_call (Select.__call__ table size op filter_by db) db)
  /\ (forall table data, stops_at_first_call (Insert.__call__ table data db) db)
  /\ (forall table data filter_by,
        stops_at_first_call (Update.__call__ table data filter_by db) db)
  /\ (forall table id filter_by,
        stops_at_first_call (Delete.__call__ table id filter_by db) db)
  /\ (forall table_name columns table_primary_key if_not_exists,
        stops_at_first_call
          (CreateTable.__call__ table_name columns table_primary_key
             if_not_exists db) db)
  /\ stops_at_first_call (initialize_tables db) db.
Proof.
  intros Hdead. repeat split.
  - intros table size op filter_by. unfold Select.__call__, Select._filter.
    assert (forall q p, stops_at_first_call (Select._execute table q p size db) db)
      as Hexec.
    { intros q p. rewrite select_execute_cases, Hdead. right. by eauto. }
    destruct (truthy filter_by); [|apply Hexec].
    destruct (TableOperation._make_operator_query filter_by op false);
      [rewrite bind_lift_ok; apply Hexec|apply stops_unchanged].
  - intros table data. unfold Insert.__call__.
    destruct (negb _); [apply stops_unchanged|].
    destruct (map _ _); [apply stops_unchanged|].
    by apply stops_refused_statement.
  - intros table data filter_by. unfold Update.__call__.
    destruct data as [data|]; [|apply stops_unchanged].
    destruct (negb _); [apply stops_unchanged|].
    rewrite !builder_ok by (apply comma_supported || apply AND_supported).
    rewrite !bind_lift_ok. by apply stops_refused.
  - intros table id filter_by.
    assert (forall f, stops_at_first_call (Delete._filter table f db) db) as Hf.
    { intros f. unfold Delete._filter.
      destruct (negb _); [apply stops_unchanged|].
      rewrite builder_ok by apply AND_supported. rewrite bind_lift_ok.
      by apply stops_refused. }
    destruct id; unfold Delete.__call__; try apply Hf.
    by apply stops_refused_statement.
  - intros table_name columns table_primary_key if_not_exists.
    unfold CreateTable.__call__.
    destruct (negb (_ || _)); [apply stops_unchanged|].
    destruct (_ && _); [by apply stops_refused|].
    destruct (_ || _); [apply stops_unchanged|by apply stops_refused].
  - unfold initialize_tables, cursor_execute. by apply stops_refused.
Qed.

Lemma refused_call_ends_the_operation_witness :
  stops_at_first_call
    (Update.__call__ example_table (Update.Dict [("name", VStr "x")]) [] dead_db)
    dead_db.
Proof.
  destruct (refused_call_ends_the_operation dead_db) as (_ & _ & H & _);
    [reflexivity|apply H].
Defined.

(** ** What the operations keep *)

Lemma same_registry_history (db0 : DB) (h : list call) (db : DB) :
  same_registry db0 db -> same_registry db0 (set_history h db).
Proof. by intros H. Qed.

(** X14: the operations on a table never touch the registry: whatever
    the arguments and the engine's answers, and whether they return or
    raise, Select, Insert, Update and Delete leave the attributes bound
    on the DB object, its table names and its class data as they were. *)
Theorem table_operations_leave_registry
    (table : Table) (size : Z) (op : string) (filter_by : TQueryData)
    (rows : Insert.arg) (data : Update.data_arg) (id : Delete.id_arg) (db : DB) :
  same_registry db (snd (Select.__call__ table size op filter_by db))
  /\ same_registry db (snd (Insert.__call__ table rows db))
  /\ same_registry db (snd (Update.__call__ table data filter_by db))
  /\ same_registry db (snd (Delete.__call__ table id filter_by db)).
Proof.
  repeat split;
    (apply (preserves_select _ (same_registry_history db))
     || apply (preserves_insert _ (same_registry_history db))
     || apply (preserves_update _ (same_registry_history db))
     || apply (preserves_delete _ (same_registry_history db))); done.
Qed.

(** ** Discovery: what gets bound *)

Lemma well_keyed_history (h : list call) (db : DB) :
  well_keyed db -> well_keyed (set_history h db).
Proof. by intros H. Qed.

Lemma well_keyed_bound (nm tn : string) (t : Table) (db : DB) :
  lower (name t) = nm -> well_keyed db ->
  well_keyed (table_names_add tn (setattr nm t db)).
Proof.
  intros Ht H key t' Hkey.
  cbn [table_names_add setattr set_table_names set_attrs attrs] in Hkey.
  destruct (decide (key = nm)) as [->|Hne].
  - rewrite lookup_insert_eq in Hkey. by injection Hkey as <-.
  - rewrite lookup_insert_ne in Hkey by done. by apply H.
Qed.

Lemma well_keyed_cached (items : list attr) (db : DB) :
  well_keyed db -> well_keyed (cached items db).
Proof.
  intros H key t Hkey. cbn [cached set_attrs attrs] in Hkey.
  destruct (decide (key = "tables")) as [->|Hne].
  - by rewrite lookup_insert_eq in Hkey.
  - rewrite lookup_insert_ne in Hkey by done. by apply H.
Qed.

Lemma well_keyed_del_tables (db : DB) : well_keyed db -> well_keyed (del_tables db).
Proof.
  intros H key t Hkey. cbn [del_tables set_attrs attrs] in Hkey.
  apply lookup_delete_Some in Hkey as [_ Hkey]. by apply H.
Qed.

Lemma preserves_well_keyed_discovery : preserves well_keyed initialize_tables.
Proof.
  apply preserves_initialize_tables.
  - intros items d _. apply well_keyed_cached.
  - apply well_keyed_history.
  - intros nm tn t d Ht _ _ _. by apply well_keyed_bound.
  - apply well_keyed_del_tables.
Qed.

(** X15: discovery and CreateTable keep the keys of the registry right:
    if every table bound on the DB object sits under the lower case of
    its name, the same holds after [initialize_tables] and after
    [CreateTable], whatever the arguments and the engine's answers, and
    whether they return or raise. *)
Theorem registry_keys_stay_lower_case_names
    (table_name : string) (columns : CreateTable.columns_arg)
    (table_primary_key : option (list string)) (if_not_exists : bool) (db : DB) :
  well_keyed db ->
  well_keyed (snd (initialize_tables db))
  /\ well_keyed (snd (CreateTable.__call__ table_name columns table_primary_key
                        if_not_exists db)).
Proof.
  intros H. split; [by apply preserves_well_keyed_discovery|].
  revert db H. fold (preserves well_keyed
    (CreateTable.__call__ table_name columns table_primary_key if_not_exists)).
  unfold CreateTable.__call__.
  assert (forall q, preserves well_keyed
            (cursor_execute q [] >> db_commit >> initialize_tables)) as Hrun.
  { intros q. apply preserves_bind; [by apply preserves_engine_call|].
    intros _. apply preserves_bind; [by apply preserves_statement|].
    intros _. apply preserves_well_keyed_discovery. }
  destruct (negb (_ || _)); [by intros db|].
  destruct (_ && _); [apply Hrun|].
  destruct (_ || _); [by intros db|apply Hrun].
Qed.

Lemma registry_keys_stay_lower_case_names_witness :
  well_keyed (snd (initialize_tables catalog_db)).
Proof.
  apply (registry_keys_stay_lower_case_names "t" CreateTable.ColOther None true
           catalog_db).
  intros key t H. change (attrs catalog_db) with (∅ : gmap string attr) in H.
  by rewrite lookup_empty in H.
Defined.

Lemma ascii_lower_idem (c : ascii) : ascii_lower (ascii_lower c) = ascii_lower c.
Proof. destruct c as [[] [] [] [] [] [] [] []]; by vm_compute. Qed.

Lemma lower_idem (s : string) : lower (lower s) = lower s.
Proof.
  induction s as [|c s IH]; [done|]. simpl. by rewrite ascii_lower_idem, IH.
Qed.

Lemma not_lower_case (y z : string) : y <> lower y -> lower z <> y.
Proof. intros Hy E. apply Hy. by rewrite <- E, lower_idem. Qed.

(** *** One name through the loops *)

Section Key.

Context {A : Type} (key tname : A -> string) (tb : A -> DB -> Table).
Variables (k : string) (Q : DB -> Prop).
Hypothesis k_not_tables : k <> "tables".
Hypothesis Q_cached : forall items d, Q d -> Q (cached items d).
Hypothesis Q_other :
  forall nm tn t d, nm <> k -> Q d -> Q (table_names_add tn (setattr nm t d)).

(** A body keeps [Q] when binding the name [k] itself keeps it. *)
Lemma keeps_body (y : A) :
  (key y = k -> forall d, resolves d k = false -> Q d ->
                Q (table_names_add (tname y) (setattr k (tb y d) d))) ->
  preserves Q (bind_name (key y) (tname y) (tb y)).
Proof.
  intros Hk d Hd.
  destruct (bind_name_cases (key y) (tname y) (tb y) d)
    as [(-> & _)|[(_ & Hun & items & ->)|[(-> & Hun & Hr)|(-> & _)]]]; simpl;
    auto.
  destruct (decide (key y = k)) as [E|E]; [|by apply Q_other].
  specialize (Hk E). rewrite E in Hr |- *. apply Hk; [by apply Hr|done].
Qed.

(** As long as the name [k] does not resolve, [Q] is pending: a body
    that brings [Q] about when it binds [k] keeps "unresolved or [Q]". *)
Lemma pending_body (y : A) :
  (key y = k -> forall d, resolves d k = false ->
                Q (table_names_add (tname y) (setattr k (tb y d) d))) ->
  preserves (fun d => resolves d k = false \/ Q d)
    (bind_name (key y) (tname y) (tb y)).
Proof.
  intros Hk d Hd.
  destruct (bind_name_cases (key y) (tname y) (tb y) d)
    as [(-> & _)|[(_ & Hun & items & ->)|[(-> & Hun & Hr)|(-> & _)]]]; simpl;
    auto.
  - destruct Hd as [Hd|Hd]; [left; by rewrite resolves_cached|right; auto].
  - destruct (decide (key y = k)) as [E|E].
    + right. specialize (Hk E). rewrite E in Hr |- *. apply Hk. by apply Hr.
    + destruct Hd as [Hd|Hd]; [left|right; by apply Q_other].
      rewrite resolves_other; [done|]. by intros E'.
Qed.

(** The body of the name [k], when it returns, settles [Q]. *)
Lemma settles_body (x : A) (d d' : DB) :
  key x = k ->
  (forall d, resolves d k = false ->
             Q (table_names_add (tname x) (setattr k (tb x d) d))) ->
  (resolves d k = true -> Q d) ->
  bind_name (key x) (tname x) (tb x) d = (Ok tt, d') -> Q d'.
Proof.
  intros E Hk Htrue Hrun. rewrite E in Hrun.
  destruct (bind_name_cases k (tname x) (tb x) d)
    as [(H & Hr & _)|[(Hnm & _)|[(H & Hun & Hr)|(H & _)]]]; try done.
  - rewrite H in Hrun. injection Hrun as <-. apply Htrue. by apply Hr.
  - rewrite H in Hrun. injection Hrun as <-. apply Hk. by apply Hr.
  - rewrite H in Hrun. discriminate.
Qed.

Lemma loop_keeps (l : list A) :
  (forall y, y ∈ l -> key y = k -> forall d, resolves d k = false -> Q d ->
             Q (table_names_add (tname y) (setattr k (tb y d) d))) ->
  preserves Q (for_each l (fun y => bind_name (key y) (tname y) (tb y))).
Proof.
  intros H. apply preserves_for_each_in. intros y Hy. apply keeps_body.
  by apply H.
Qed.

Lemma loop_pending (l : list A) :
  (forall y, y ∈ l -> key y = k -> forall d, resolves d k = false ->
             Q (table_names_add (tname y) (setattr k (tb y d) d))) ->
  preserves (fun d => resolves d k = false \/ Q d)
    (for_each l (fun y => bind_name (key y) (tname y) (tb y))).
Proof.
  intros H. apply preserves_for_each_in. intros y Hy. apply pending_body.
  by apply H.
Qed.

(** A loop that meets the name [k] and returns settles [Q], if [Q] holds
    whenever the name resolved before. *)
Lemma loop_settles (l : list A) (x : A) (d d' : DB) :
  (forall y, y ∈ l -> key y = k -> forall d, resolves d k = false ->
             Q (table_names_add (tname y) (setattr k (tb y d) d))) ->
  x ∈ l -> key x = k -> resolves d k = false \/ Q d ->
  for_each l (fun y => bind_name (key y) (tname y) (tb y)) d = (Ok tt, d') ->
  Q d'.
Proof.
  intros H Hx E Hd Hrun.
  apply (for_each_establishes
           (fun y => bind_name (key y) (tname y) (tb y))
           (fun d => resolves d k = false \/ Q d) Q l x d d'); try done.
  - intros y Hy. apply pending_body. by apply H.
  - intros y Hy. apply keeps_body. intros E' d0 Hr _. by apply (H y).
  - intros d0 d1 Hd0 Hrun0.
    apply (settles_body x d0 d1); try done.
    + by apply H.
    + intros Hr. destruct Hd0 as [Hd0|Hd0]; [congruence|done].
Qed.

End Key.

Lemma custom_loop_form (custom : list Table) :
  for_each custom bind_custom_table
  = for_each custom
      (fun t => bind_name (lower (name t)) (name t) (fun _ => Table_call t)).
Proof. reflexivity. Qed.

Lemma catalog_loop_form (names : list string) :
  for_each (map (fun n => [VStr n]) names) bind_catalog_row
  = for_each names
      (fun n => bind_name (lower n) (lower n)
                  (fun db => Table_call (Table_new n (use_datacls db)))).
Proof. by rewrite for_each_map. Qed.

(** *** What a discovery leaves *)

(** The loops touch the attributes and the table names only. *)
Lemma loops_frame (custom : list Table) (rows : list (list value)) (d d1 d2 : DB) :
  for_each custom bind_custom_table d = (Ok tt, d1) ->
  for_each rows bind_catalog_row d1 = (Ok tt, d2) ->
  history d2 = history d /\ respond d2 = respond d
  /\ custom_tables d2 = custom_tables d /\ use_datacls d2 = use_datacls d
  /\ set_order d2 = set_order d.
Proof.
  intros H1 H2.
  set (P := fun x : DB =>
              history x = history d /\ respond x = respond d
              /\ custom_tables x = custom_tables d /\ use_datacls x = use_datacls d
              /\ set_order x = set_order d).
  assert (forall items x, attrs x !! "tables" = None -> P x -> P (cached items x))
    as Hc by (by intros items x _).
  assert (forall nm tn t x,
            lower (name t) = nm -> tn = name t \/ tn = nm ->
            attrs x !! nm = None -> (nm <> "tables" -> resolves x nm = false) ->
            P x -> P (table_names_add tn (setattr nm t x)))
    as Hb by (by intros nm tn t x _ _ _ _).
  assert (P d1) as Hd1.
  { pose proof (preserves_for_each P bind_custom_table custom
                  (preserves_bind_custom_table P Hc Hb) d) as H.
    rewrite H1 in H. by apply H. }
  pose proof (preserves_for_each P bind_catalog_row rows
                (preserves_bind_catalog_row P Hc Hb) d1 Hd1) as H.
  by rewrite H2 in H.
Qed.

Lemma discovery_frame (db db' : DB) :
  initialize_tables db = (Ok tt, db') ->
  history db' = (history db ++ [Execute catalog_stmt []])%list
  /\ respond db' = respond db /\ custom_tables db' = custom_tables db
  /\ use_datacls db' = use_datacls db /\ set_order db' = set_order db.
Proof.
  intros Hrun. destruct (discovery_answered _ _ Hrun) as [rows Hrows].
  destruct (discovery_phases rows db db' Hrows Hrun) as (d1 & d2 & H1 & H2 & ->).
  cbn [del_tables set_attrs history respond custom_tables use_datacls set_order].
  by destruct (loops_frame _ _ _ _ _ H1 H2) as (-> & -> & -> & -> & ->).
Qed.

(** A discovery overwrites no attribute, the one under [tables] apart. *)
Lemma discovery_keeps_attr (db : DB) (y : string) (a : attr) :
  y <> "tables" -> attrs db !! y = Some a ->
  attrs (snd (initialize_tables db)) !! y = Some a.
Proof.
  intros Hy. apply (preserves_initialize_tables (fun d => attrs d !! y = Some a)).
  - intros items d _ H. cbn [cached set_attrs attrs]. by rewrite lookup_insert_ne.
  - by intros h d.
  - intros nm tn t d _ _ Hun _ H.
    cbn [table_names_add setattr set_table_names set_attrs attrs].
    rewrite lookup_insert_ne; [done|]. intros ->. congruence.
  - intros d H. cbn [del_tables set_attrs attrs]. by rewrite lookup_delete_ne.
Qed.

(** A discovery drops no table name. *)
Lemma discovery_names_grow (db : DB) (tn : string) :
  tn ∈ table_names db -> tn ∈ table_names (snd (initialize_tables db)).
Proof.
  apply (preserves_initialize_tables (fun d => tn ∈ table_names d)).
  - by intros items d _.
  - by intros h d.
  - intros nm tn' t d _ _ _ _ H.
    cbn [table_names_add setattr set_table_names set_attrs table_names].
    by apply elem_of_union_r.
  - by intros d.
Qed.

(** What holds when the discovery starts and is kept by each step that
    the catalog [names] and the custom tables allow, holds when it ends,
    whether it returns or raises. *)
Lemma discovery_keeps_listed (P : DB -> Prop) (names : list string) (db : DB) :
  respond db (history db) (Execute catalog_stmt [])
    = Some (map (fun n => [VStr n]) names) ->
  (forall items d, attrs d !! "tables" = None -> P d -> P (cached items d)) ->
  (forall t d, t ∈ default [] (custom_tables db) ->
               attrs d !! lower (name t) = None -> P d ->
               P (table_names_add (name t)
                    (setattr (lower (name t)) (Table_call t) d))) ->
  (forall n d, n ∈ names -> attrs d !! lower n = None -> P d ->
               P (table_names_add (lower n)
                    (setattr (lower n)
                       (Table_call (Table_new n (use_datacls d))) d))) ->
  (forall d, P d -> P (del_tables d)) ->
  P (after [Execute catalog_stmt []] db) -> P (snd (initialize_tables db)).
Proof.
  intros Hrows Hc Hcustom Hcatalog Hdel.
  rewrite (initialize_tables_answered _ _ Hrows).
  assert (preserves P
            (for_each (default [] (custom_tables db)) bind_custom_table
               >> for_each (map (fun n => [VStr n]) names) bind_catalog_row
               >> forget_tables)) as H; [|by apply H].
  apply preserves_bind.
  { apply preserves_for_each_in. intros t Ht. rewrite bind_custom_table_eq.
    apply preserves_bind_name; [done|]. intros d Hun _. by apply Hcustom. }
  intros _. apply preserves_bind.
  { rewrite catalog_loop_form. apply preserves_for_each_in. intros n Hn.
    apply preserves_bind_name; [done|]. intros d Hun _. by apply Hcatalog. }
  intros _. by apply preserves_forget_tables.
Qed.

(** When the engine answers the catalog query with names, nothing is
    bound to [tables] after the discovery, whether it returned or
    raised. *)
Lemma discovery_leaves_tables_unbound (names : list string) (db : DB) :
  respond db (history db) (Execute catalog_stmt [])
    = Some (map (fun n => [VStr n]) names) ->
  attrs (snd (initialize_tables db)) !! "tables" = None.
Proof.
  intros Hrows. rewrite (initialize_tables_answered _ _ Hrows).
  assert (forall (nm tn : string) (tb : DB -> Table) d0 d1 e0,
            bind_name nm tn tb d0 = (Raise e0, d1) -> attrs d1 !! "tables" = None)
    as Hraise.
  { intros nm tn tb d0 d1 e0 H.
    destruct (bind_name_cases nm tn tb d0)
      as [(E & _)|[(_ & _ & items & E)|[(E & _)|(E & _ & Hun & _)]]];
      rewrite E in H; try discriminate. by injection H as _ <-. }
  unfold bind.
  destruct (for_each (default [] (custom_tables db)) bind_custom_table _)
    as [[[]|e] d1] eqn:H1.
  - destruct (for_each (map (fun n => [VStr n]) names) bind_catalog_row d1)
      as [[[]|e] d2] eqn:H2.
    + destruct (forget_tables_cases d2) as [->|(-> & Hun & _)]; [|done].
      apply lookup_delete_eq.
    + rewrite catalog_loop_form in H2. simpl.
      apply (for_each_raises _ (fun _ d => attrs d !! "tables" = None) _ _ _ _
               (fun x d0 d3 e0 _ => Hraise _ _ _ d0 d3 e0) H2).
    - simpl. rewrite custom_loop_form in H1.
      apply (for_each_raises _ (fun _ d => attrs d !! "tables" = None) _ _ _ _
               (fun x d0 d3 e0 _ => Hraise _ _ _ d0 d3 e0) H1).
Qed.

(** X16: a discovery adds nothing of its own.  When the engine answers
    the catalog query with the tables [names], then after the discovery,
    whether it returned or raised, every table name on the DB object was
    there before, or is the lower-cased name of a catalog table, or is
    the name of a custom table as it is written; and every attribute
    was there before, or is a new generic table for a catalog name under
    that name in lower case, or is a custom table under its name in
    lower case. *)
Theorem discovery_adds_only_catalog_and_custom_tables
    (names : list string) (db : DB) :
  respond db (history db) (Execute catalog_stmt [])
    = Some (map (fun n => [VStr n]) names) ->
  added_by_discovery names (default [] (custom_tables db)) (use_datacls db)
    db (snd (initialize_tables db)).
Proof.
  intros Hrows.
  set (custom := default [] (custom_tables db)).
  set (P := fun d =>
    use_datacls d = use_datacls db
    /\ (forall tn, tn ∈ table_names d ->
          tn ∈ table_names db
          \/ (exists n, n ∈ names /\ tn = lower n)
          \/ (exists t, t ∈ custom /\ tn = name t))
    /\ (forall key a, attrs d !! key = Some a ->
          key = "tables"
          \/ attrs db !! key = Some a
          \/ (exists n, n ∈ names /\ key = lower n
                        /\ a = ATable (Table_call (Table_new n (use_datacls db))))
          \/ (exists t, t ∈ custom /\ key = lower (name t)
                        /\ a = ATable (Table_call t)))).
  assert (P (snd (initialize_tables db))) as (_ & Hn & Ha).
  { apply (discovery_keeps_listed P names db Hrows).
    - intros items d _ (Hd & Hn & Ha). split; [done|]. split; [done|].
      intros key a Hkey. cbn [cached set_attrs attrs] in Hkey.
      destruct (decide (key = "tables")) as [->|Hne]; [by left|].
      rewrite lookup_insert_ne in Hkey by done. by apply Ha.
    - intros t d Ht _ (Hd & Hn & Ha). split; [done|]. split.
      + intros tn Htn. cbn [table_names_add setattr set_table_names set_attrs
                            table_names] in Htn.
        apply elem_of_union in Htn as [Htn|Htn]; [|by apply Hn].
        apply elem_of_singleton in Htn as ->. right. right. by exists t.
      + intros key a Hkey. cbn [table_names_add setattr set_table_names set_attrs
                                attrs] in Hkey.
        destruct (decide (key = lower (name t))) as [->|Hne].
        * rewrite lookup_insert_eq in Hkey. injection Hkey as <-.
          right. right. right. by exists t.
        * rewrite lookup_insert_ne in Hkey by done. by apply Ha.
    - intros n d Hin _ (Hd & Hn & Ha). split; [done|]. split.
      + intros tn Htn. cbn [table_names_add setattr set_table_names set_attrs
                            table_names] in Htn.
        apply elem_of_union in Htn as [Htn|Htn]; [|by apply Hn].
        apply elem_of_singleton in Htn as ->. right. left. by exists n.
      + intros key a Hkey. cbn [table_names_add setattr set_table_names set_attrs
                                attrs] in Hkey.
        destruct (decide (key = lower n)) as [->|Hne].
        * rewrite lookup_insert_eq in Hkey. injection Hkey as <-.
          right. right. left. exists n. by rewrite Hd.
        * rewrite lookup_insert_ne in Hkey by done. by apply Ha.
    - intros d (Hd & Hn & Ha). split; [done|]. split; [done|].
      intros key a Hkey. cbn [del_tables set_attrs attrs] in Hkey.
      apply lookup_delete_Some in Hkey as [_ Hkey]. by apply Ha.
    - split; [done|]. split; [by left|]. intros key a Hkey. right. by left. }
  split; [done|]. intros key a Hkey.
  destruct (Ha key a Hkey) as [->|H]; [|done].
  rewrite (discovery_leaves_tables_unbound names db Hrows) in Hkey. discriminate.
Qed.

Lemma discovery_adds_only_catalog_and_custom_tables_witness :
  added_by_discovery ["Folder"; "link"] [mkTable "Notes" ["id"] false false]
    false catalog_db (snd (initialize_tables catalog_db)).
Proof.
  apply (discovery_adds_only_catalog_and_custom_tables ["Folder"; "link"] catalog_db).
  reflexivity.
Defined.

Lemma resolves_after (cs : list call) (db : DB) (y : string) :
  resolves (after cs db) y = resolves db y.
Proof. reflexivity. Qed.

(** A custom table whose lower-cased name does not resolve gets bound by
    the first loop, and the second loop leaves it: the attribute is a
    custom table of that lower-cased name, and the name of that table,
    as written, is a table name. *)
Lemma discovery_binds_custom (custom : list Table) (t : Table) (db db' : DB) :
  custom_tables db = Some custom -> t ∈ custom ->
  resolves db (lower (name t)) = false ->
  initialize_tables db = (Ok tt, db') ->
  exists t', t' ∈ custom /\ lower (name t') = lower (name t)
    /\ attrs db' !! lower (name t) = Some (ATable (Table_call t'))
    /\ name t' ∈ table_names db'.
Proof.
  intros Hc Ht Hfree Hrun.
  set (k := lower (name t)) in *.
  assert (k <> "tables") as Hk by (by apply (resolves_false_not_tables db)).
  set (Q := fun d : DB =>
              exists t', t' ∈ custom /\ lower (name t') = k
                /\ attrs d !! k = Some (ATable (Table_call t'))
                /\ name t' ∈ table_names d).
  assert (forall items d, Q d -> Q (cached items d)) as Qc.
  { intros items d (t' & H1 & H2 & H3 & H4). exists t'.
    cbn [cached set_attrs attrs table_names]. by rewrite lookup_insert_ne. }
  assert (forall nm tn t0 d, nm <> k -> Q d ->
                             Q (table_names_add tn (setattr nm t0 d))) as Qo.
  { intros nm tn t0 d Hne (t' & H1 & H2 & H3 & H4). exists t'.
    cbn [table_names_add setattr set_table_names set_attrs attrs table_names].
    rewrite lookup_insert_ne by done. repeat split; try done.
    by apply elem_of_union_r. }
  destruct (discovery_answered _ _ Hrun) as [rows Hrows].
  destruct (discovery_phases rows db db' Hrows Hrun) as (d1 & d2 & H1 & H2 & ->).
  rewrite Hc in H1. change (default [] (Some custom)) with custom in H1.
  rewrite custom_loop_form in H1.
  assert (Q d1) as Hd1.
  { apply (loop_settles (fun t0 => lower (name t0)) name (fun t0 _ => Table_call t0)
             k Q Hk Qc Qo custom t (after [Execute catalog_stmt []] db) d1);
      try done.
    - intros y Hy Hy' d Hr. exists y.
      cbn [table_names_add setattr set_table_names set_attrs attrs table_names].
      rewrite lookup_insert_eq. repeat split; try done.
      by apply elem_of_union_l, elem_of_singleton.
    - left. by rewrite resolves_after. }
  assert (Q d2) as (t' & Ht' & Hl & Ha & Hn).
  { assert (preserves Q (for_each rows bind_catalog_row)) as Hp.
    { apply preserves_for_each. intros row.
      destruct (bind_catalog_row_cases row) as [[e He]|(n & rest & ->)];
        [intros d Hd; by rewrite He|].
      rewrite bind_catalog_row_eq.
      apply (keeps_body lower lower
               (fun n db => Table_call (Table_new n (use_datacls db)))
               k Q Hk Qc Qo n).
      intros _ d Hr (t' & _ & _ & Ha & _).
      apply resolves_bound_attr in Ha. congruence. }
    specialize (Hp d1 Hd1). by rewrite H2 in Hp. }
  exists t'. cbn [del_tables set_attrs attrs table_names].
  by rewrite lookup_delete_ne.
Qed.

(** X17: a custom table comes before the catalog.  When the lower-cased
    name of a table of [custom_tables] does not resolve before the
    discovery, then after a discovery that returns the attribute of that
    name is a custom table of that name, never the generic table of a
    catalog entry, whatever the catalog holds.  And the discovery does
    return when the engine answers the catalog query with names and the
    [tables] property cannot be led back into itself. *)
Theorem custom_table_wins_over_catalog
    (custom : list Table) (t : Table) (db : DB) :
  custom_tables db = Some custom ->
  t ∈ custom ->
  resolves db (lower (name t)) = false ->
  (forall db', initialize_tables db = (Ok tt, db') ->
     exists t', t' ∈ custom /\ lower (name t') = lower (name t)
       /\ attrs db' !! lower (name t) = Some (ATable (Table_call t')))
  /\ (forall names,
        respond db (history db) (Execute catalog_stmt [])
          = Some (map (fun n => [VStr n]) names) ->
        tables_safe db -> returns initialize_tables db).
Proof.
  intros Hc Ht Hfree. split.
  - intros db' Hrun.
    destruct (discovery_binds_custom custom t db db' Hc Ht Hfree Hrun)
      as (t' & H1 & H2 & H3 & _).
    by exists t'.
  - intros names Hrows Hsafe.
    destruct (discovery_returns names db Hrows Hsafe) as [db' Hrun].
    by exists tt, db'.
Qed.

Lemma custom_table_wins_over_catalog_witness :
  exists t', t' ∈ [mkTable "Folder" ["id"; "title"] true false]
    /\ lower (name t') = "folder"
    /\ attrs (snd (initialize_tables
                     (mkDB (respond catalog_db) [] false
                        (Some [mkTable "Folder" ["id"; "title"] true false])
                        ∅ ∅ (fun _ => []))))
         !! "folder"
       = Some (ATable (Table_call t')).
Proof.
  destruct (custom_table_wins_over_catalog
              [mkTable "Folder" ["id"; "title"] true false]
              (mkTable "Folder" ["id"; "title"] true false)
              (mkDB (respond catalog_db) [] false
                 (Some [mkTable "Folder" ["id"; "title"] true false])
                 ∅ ∅ (fun _ => []))) as [H _].
  - reflexivity.
  - apply list_elem_of_here.
  - by vm_compute.
  - apply H. by vm_compute.
Defined.

(** X18: the first loop records the name of a custom table as written,
    and binds it in lower case.  So for a custom table whose name has a
    capital letter (no other custom table sharing its lower-cased
    name), when neither the name nor its lower case resolves before the
    discovery, then after a discovery that returns the name is among
    [table_names] and still is no attribute of the DB object; the
    [tables] property then fails on it, so that [hasattr(db, "tables")]
    is false, unless [tables] is itself a table name.  And the discovery
    does return when the engine answers the catalog query with names and
    the [tables] property cannot be led back into itself. *)
Theorem capital_custom_name_is_listed_but_unbound
    (custom : list Table) (t : Table) (db : DB) :
  custom_tables db = Some custom ->
  t ∈ custom ->
  (forall t', t' ∈ custom -> lower (name t') = lower (name t) -> name t' = name t) ->
  name t <> lower (name t) ->
  resolves db (lower (name t)) = false ->
  resolves db (name t) = false ->
  (forall db', initialize_tables db = (Ok tt, db') ->
     name t ∈ table_names db'
     /\ hasattr (name t) db' = (Ok false, db')
     /\ ("tables" ∉ table_names db' -> hasattr "tables" db' = (Ok false, db')))
  /\ (forall names,
        respond db (history db) (Execute catalog_stmt [])
          = Some (map (fun n => [VStr n]) names) ->
        tables_safe db -> returns initialize_tables db).
Proof.
  intros Hc Ht Huniq Hcap Hfree Hname. split.
  - intros db' Hrun.
    assert (name t ∈ table_names db') as Hin.
    { destruct (discovery_binds_custom custom t db db' Hc Ht Hfree Hrun)
        as (t' & Ht' & Hk & _ & Hn).
      by rewrite <- (Huniq t' Ht' Hk). }
    assert (name t <> "tables") as Hne by (intros E; by rewrite E in Hcap).
    assert (resolves db' (name t) = false) as Hr.
    { pose proof (preserves_initialize_tables
                    (fun d => resolves d (name t) = false)) as Hp.
      specialize (Hp (fun items d _ H =>
                        eq_trans (resolves_cached items d _ Hne) H)).
      specialize (Hp (fun h d H => H)).
      assert (forall nm tn t0 d,
                lower (name t0) = nm -> tn = name t0 \/ tn = nm ->
                attrs d !! nm = None -> (nm <> "tables" -> resolves d nm = false) ->
                resolves d (name t) = false ->
                resolves (table_names_add tn (setattr nm t0 d)) (name t) = false)
        as Hb.
      { intros nm tn t0 d Hnm _ _ _ H. rewrite resolves_other; [done|].
        rewrite <- Hnm. intros E. symmetry in E. revert E. by apply not_lower_case. }
      specialize (Hp Hb).
      specialize (Hp (fun d H => eq_trans (resolves_del_tables d _ Hne) H)).
      specialize (Hp db Hname). by rewrite Hrun in Hp. }
    split; [done|]. split.
    + by rewrite hasattr_not_tables, Hr.
    + intros Hno. apply (hasattr_tables_unresolved db' (name t)); try done.
      by apply (discovery_forgets_tables db).
  - intros names Hrows Hsafe.
    destruct (discovery_returns names db Hrows Hsafe) as [db' Hrun].
    by exists tt, db'.
Qed.

Lemma capital_custom_name_is_listed_but_unbound_witness :
  "Notes" ∈ table_names (snd (initialize_tables catalog_db))
  /\ hasattr "Notes" (snd (initialize_tables catalog_db))
     = (Ok false, snd (initialize_tables catalog_db))
  /\ ("tables" ∉ table_names (snd (initialize_tables catalog_db)) ->
      hasattr "tables" (snd (initialize_tables catalog_db))
        = (Ok false, snd (initialize_tables catalog_db))).
Proof.
  destruct (capital_custom_name_is_listed_but_unbound
              [mkTable "Notes" ["id"] false false]
              (mkTable "Notes" ["id"] false false) catalog_db) as [H _];
    try reflexivity; try discriminate.
  - apply list_elem_of_here.
  - intros t' Ht' _. by apply list_elem_of_singleton in Ht' as ->.
  - apply H. by vm_compute.
Defined.

(** *** The catalog *)

(** A name of the catalog, through a discovery that returns: what every
    binding of the name brings about, and what holds already when the
    name resolves before, holds after. *)
Lemma discovery_settles_catalog (Q : DB -> Prop) (k : string)
    (names : list string) (db db' : DB) (n : string) :
  k <> "tables" ->
  (forall items d, Q d -> Q (cached items d)) ->
  (forall nm tn t d, nm <> k -> Q d -> Q (table_names_add tn (setattr nm t d))) ->
  (forall d, Q d -> Q (del_tables d)) ->
  (forall tn t d, lower (name t) = k -> tn = name t \/ tn = k ->
                  resolves d k = false -> Q (table_names_add tn (setattr k t d))) ->
  respond db (history db) (Execute catalog_stmt [])
    = Some (map (fun n => [VStr n]) names) ->
  initialize_tables db = (Ok tt, db') ->
  n ∈ names -> lower n = k ->
  resolves (after [Execute catalog_stmt []] db) k = false
    \/ Q (after [Execute catalog_stmt []] db) ->
  Q db'.
Proof.
  intros Hk Qc Qo Qd Qb Hrows Hrun Hn Hl Hstart.
  destruct (discovery_phases _ db db' Hrows Hrun) as (d1 & d2 & H1 & H2 & ->).
  rewrite custom_loop_form in H1. rewrite catalog_loop_form in H2.
  apply Qd.
  apply (loop_settles lower lower
           (fun n db => Table_call (Table_new n (use_datacls db)))
           k Q Hk Qc Qo names n d1 d2); try done.
  - intros y _ Hy d Hr. apply Qb; [done|by right|done].
  - assert (preserves (fun d => resolves d k = false \/ Q d)
              (for_each (default [] (custom_tables db))
                 (fun t => bind_name (lower (name t)) (name t)
                             (fun _ => Table_call t)))) as Hp.
    { apply (loop_pending (fun t0 => lower (name t0)) name
               (fun t0 _ => Table_call t0) k Q Hk Qc Qo).
      intros y _ Hy d Hr. apply Qb; [done|by left|done]. }
    specialize (Hp _ Hstart). by rewrite H1 in Hp.
Qed.

Lemma discovery_resolves (names : list string) (db db' : DB) (n : string) :
  respond db (history db) (Execute catalog_stmt [])
    = Some (map (fun n => [VStr n]) names) ->
  initialize_tables db = (Ok tt, db') ->
  n ∈ names -> lower n <> "tables" -> resolves db' (lower n) = true.
Proof.
  intros Hrows Hrun Hn Hk.
  apply (discovery_settles_catalog (fun d => resolves d (lower n) = true)
           (lower n) names db db' n); try done.
  - intros items d H. by rewrite resolves_cached.
  - intros nm tn t d Hne H. rewrite resolves_other; [done|]. by intros E.
  - intros d H. by rewrite resolves_del_tables.
  - intros tn t d _ _ _. apply resolves_bound.
  - destruct (resolves _ (lower n)); auto.
Qed.

Lemma discovery_binds (names : list string) (db db' : DB) (n : string) :
  respond db (history db) (Execute catalog_stmt [])
    = Some (map (fun n => [VStr n]) names) ->
  initialize_tables db = (Ok tt, db') ->
  n ∈ names -> resolves db (lower n) = false ->
  bound_to_table db' (lower n) /\ listed db' (lower n).
Proof.
  intros Hrows Hrun Hn Hfree.
  assert (lower n <> "tables") as Hk by (by apply (resolves_false_not_tables db)).
  split.
  - apply (discovery_settles_catalog (fun d => bound_to_table d (lower n))
             (lower n) names db db' n); try done; try (by left).
    + intros items d (t & Ht & Hl). exists t. cbn [cached set_attrs attrs].
      by rewrite lookup_insert_ne.
    + intros nm tn t0 d Hne (t & Ht & Hl). exists t.
      cbn [table_names_add setattr set_table_names set_attrs attrs].
      by rewrite lookup_insert_ne.
    + intros d (t & Ht & Hl). exists t. cbn [del_tables set_attrs attrs].
      by rewrite lookup_delete_ne.
    + intros tn t d Hl _ _. exists t.
      cbn [table_names_add setattr set_table_names set_attrs attrs].
      by rewrite lookup_insert_eq.
  - apply (discovery_settles_catalog (fun d => listed d (lower n))
             (lower n) names db db' n); try done; try (by left).
    + intros nm tn t0 d Hne (tn' & Htn & Hl). exists tn'. split; [|done].
      cbn [table_names_add setattr set_table_names set_attrs table_names].
      by apply elem_of_union_r.
    + intros tn t d Hl Htn _. exists tn. split.
      * cbn [table_names_add setattr set_table_names set_attrs table_names].
        by apply elem_of_union_l, elem_of_singleton.
      * destruct Htn as [->| ->]; [done|apply lower_idem].
Qed.

(** X23: what a discovery does with the catalog.  When the engine
    answers the catalog query with the tables [names], the discovery
    returns if the [tables] property cannot be led back into itself; and
    after a discovery that returns, the catalog query is the one call
    added to the history, nothing is bound to [tables], no table name
    was dropped and no attribute overwritten (the one under [tables]
    apart), the lower-cased name of every catalog table other than
    [tables] resolves on the DB object, and a catalog table whose
    lower-cased name did not resolve before is bound under that name to
    a table of that name and is among the table names up to letter
    case. *)
Theorem discovery_binds_the_catalog (names : list string) (db : DB) :
  respond db (history db) (Execute catalog_stmt [])
    = Some (map (fun n => [VStr n]) names) ->
  (tables_safe db -> returns initialize_tables db)
  /\ forall db', initialize_tables db = (Ok tt, db') ->
       history db' = (history db ++ [Execute catalog_stmt []])%list
       /\ attrs db' !! "tables" = None
       /\ table_names db ⊆ table_names db'
       /\ (forall y a, y <> "tables" ->
             attrs db !! y = Some a -> attrs db' !! y = Some a)
       /\ forall n, n ∈ names ->
            (lower n <> "tables" -> resolves db' (lower n) = true)
            /\ (resolves db (lower n) = false ->
                bound_to_table db' (lower n) /\ listed db' (lower n)).
Proof.
  intros Hrows. split.
  - intros Hsafe. destruct (discovery_returns names db Hrows Hsafe) as [db' Hrun].
    by exists tt, db'.
  - intros db' Hrun.
    split; [by destruct (discovery_frame db db' Hrun)|].
    split; [by apply (discovery_forgets_tables db)|].
    split.
    { intros tn Htn. pose proof (discovery_names_grow db tn Htn) as H.
      by rewrite Hrun in H. }
    split.
    { intros y a Hy Ha. pose proof (discovery_keeps_attr db y a Hy Ha) as H.
      by rewrite Hrun in H. }
    intros n Hn. split.
    + by apply (discovery_resolves names db).
    + by apply (discovery_binds names db).
Qed.

Lemma discovery_binds_the_catalog_witness :
  bound_to_table (snd (initialize_tables catalog_db)) "folder"
  /\ listed (snd (initialize_tables catalog_db)) "folder".
Proof.
  destruct (discovery_binds_the_catalog ["Folder"; "link"] catalog_db)
    as [_ H]; [reflexivity|].
  destruct (H (snd (initialize_tables catalog_db))) as (_ & _ & _ & _ & Hn);
    [by vm_compute|].
  apply (Hn "Folder"); [apply list_elem_of_here|by vm_compute].
Defined.

(** X22: CreateTable checks its columns, then creates and discovers.
    It raises the TypeError "Incorrect type for columns" when [columns]
    is neither a sequence nor a mapping, and the TypeError "Incorrect
    type for column item" when it is a mapping one of whose values is
    not a BaseType; in both cases the DB object, its history of calls
    included, is what it was.  For a sequence of strings and for a
    mapping to BaseType values, when the engine takes the generated
    CREATE TABLE statement and the commit, the call is the discovery run
    after these two calls: it returns what [initialize_tables] returns
    and leaves the DB object as [initialize_tables] leaves it. *)
Theorem create_table_checks_then_discovers
    (table_name : string) (table_primary_key : option (list string))
    (if_not_exists : bool) (texts : list string) (descs : pydict BaseType)
    (m : pydict CreateTable.descriptor) (db : DB) :
  let create :=
    if if_not_exists then "CREATE TABLE IF NOT EXISTS " else "CREATE TABLE " in
  let primary_key :=
    match table_primary_key with
    | Some keys => ", PRIMARY KEY(" ++ join "," keys ++ ")"
    | None => ""
    end in
  let from_sequence :=
    create ++ table_name ++ "(" ++ join ", " texts ++ primary_key ++ ")" in
  let from_mapping :=
    create ++ table_name ++ " ("
      ++ join ", " (map (fun kv => fst kv ++ " " ++ render (snd kv)) descs)
      ++ primary_key ++ ")" in
  CreateTable.__call__ table_name CreateTable.ColOther table_primary_key
      if_not_exists db
    = (Raise (TypeError "Incorrect type for columns"), db)
  /\ ((exists key, (key, CreateTable.NotDescriptor) ∈ m) ->
      CreateTable.__call__ table_name (CreateTable.ColMapping m)
          table_primary_key if_not_exists db
        = (Raise (TypeError "Incorrect type for column item"), db))
  /\ (accepted db [Execute from_sequence []; Commit] = true ->
      CreateTable.__call__ table_name
          (CreateTable.ColSequence (map CreateTable.ItemStr texts))
          table_primary_key if_not_exists db
        = initialize_tables (after [Execute from_sequence []; Commit] db))
  /\ (accepted db [Execute from_mapping []; Commit] = true ->
      CreateTable.__call__ table_name
          (CreateTable.ColMapping
             (map (fun kv => (fst kv, CreateTable.Descriptor (snd kv))) descs))
          table_primary_key if_not_exists db
        = initialize_tables (after [Execute from_mapping []; Commit] db)).
Proof.
  cbv zeta. split; [reflexivity|]. split; [|split].
  - intros [key Hkey]. unfold CreateTable.__call__.
    cbn [CreateTable.is_Sequence CreateTable.is_MutableMapping orb negb andb
         CreateTable.items].
    by rewrite (some_value_not_descriptor _ _ Hkey).
  - intros Hacc. unfold CreateTable.__call__.
    cbn [CreateTable.is_Sequence CreateTable.is_MutableMapping orb negb andb
         CreateTable.elements].
    destruct (all_items_str texts) as [-> ->].
    assert (CreateTable.query if_not_exists
            = if if_not_exists then "CREATE TABLE IF NOT EXISTS "
              else "CREATE TABLE ") as -> by (by destruct if_not_exists).
    rewrite append_assoc. by apply statement_commit_discovery.
  - intros Hacc. unfold CreateTable.__call__.
    cbn [CreateTable.is_Sequence CreateTable.is_MutableMapping orb negb andb
         CreateTable.items].
    destruct (all_values_descriptors descs) as [-> ->]. cbn [negb].
    assert (CreateTable.query if_not_exists
            = if if_not_exists then "CREATE TABLE IF NOT EXISTS "
              else "CREATE TABLE ") as -> by (by destruct if_not_exists).
    rewrite append_assoc. by apply statement_commit_discovery.
Qed.

Lemma create_table_checks_then_discovers_witness :
  CreateTable.__call__ "Folder"
      (CreateTable.ColMapping
         [("id", CreateTable.Descriptor (mkBaseType "INTEGER NOT NULL"));
          ("title", CreateTable.Descriptor (mkBaseType "TEXT"))])
      (Some ["id"]) false folder_db
    = initialize_tables
        (after [Execute "CREATE TABLE Folder (id INTEGER NOT NULL, title TEXT, PRIMARY KEY(id))" [];
                Commit] folder_db)
  /\ CreateTable.__call__ "Folder"
       (CreateTable.ColMapping [("id", CreateTable.NotDescriptor)])
       None true folder_db
    = (Raise (TypeError "Incorrect type for column item"), folder_db).
Proof.
  destruct (create_table_checks_then_discovers "Folder" (Some ["id"]) false []
              [("id", mkBaseType "INTEGER NOT NULL"); ("title", mkBaseType "TEXT")]
              [] folder_db) as (_ & _ & _ & H).
  destruct (create_table_checks_then_discovers "Folder" None true [] []
              [("id", CreateTable.NotDescriptor)] folder_db)
    as (_ & H' & _).
  split.
  - apply H. reflexivity.
  - apply H'. exists "id". apply list_elem_of_here.
Defined.

(** *** A second discovery *)

Lemma bind_name_skips (nm tn : string) (tb : DB -> Table) (d : DB) :
  nm <> "tables" -> resolves d nm = true -> bind_name nm tn tb d = (Ok tt, d).
Proof.
  intros Hne Hr. unfold bind_name, bind. by rewrite hasattr_not_tables, Hr.
Qed.

Lemma discovery_resolves_custom (t : Table) (db db' : DB) :
  initialize_tables db = (Ok tt, db') ->
  t ∈ default [] (custom_tables db) -> lower (name t) <> "tables" ->
  resolves db' (lower (name t)) = true.
Proof.
  intros Hrun Ht Hk.
  set (k := lower (name t)) in *.
  set (Q := fun d : DB => resolves d k = true).
  assert (forall items d, Q d -> Q (cached items d)) as Qc
    by (intros items d H; unfold Q; by rewrite resolves_cached).
  assert (forall nm tn t0 d, nm <> k -> Q d ->
                             Q (table_names_add tn (setattr nm t0 d))) as Qo.
  { intros nm tn t0 d Hne H. unfold Q. rewrite resolves_other; [done|].
    by intros E. }
  destruct (discovery_answered _ _ Hrun) as [rows Hrows].
  destruct (discovery_phases rows db db' Hrows Hrun) as (d1 & d2 & H1 & H2 & ->).
  rewrite custom_loop_form in H1.
  assert (Q d1) as Hd1.
  { apply (loop_settles (fun t0 => lower (name t0)) name (fun t0 _ => Table_call t0)
             k Q Hk Qc Qo (default [] (custom_tables db)) t
             (after [Execute catalog_stmt []] db) d1); try done.
    - intros y _ Hy d Hr. apply resolves_bound.
    - unfold Q. destruct (resolves _ k); auto. }
  assert (Q d2) as Hd2.
  { assert (preserves Q (for_each rows bind_catalog_row)) as Hp.
    { apply preserves_for_each. intros row.
      destruct (bind_catalog_row_cases row) as [[e He]|(n & rest & ->)];
        [intros d Hd; by rewrite He|].
      rewrite bind_catalog_row_eq.
      apply (keeps_body lower lower
               (fun n db => Table_call (Table_new n (use_datacls db)))
               k Q Hk Qc Qo n).
      intros _ d Hr H. unfold Q in H. congruence. }
    specialize (Hp d1 Hd1). by rewrite H2 in Hp. }
  unfold Q. by rewrite resolves_del_tables.
Qed.

Lemma lower_not_tables (s : string) : lower s <> "tables" -> s <> "tables".
Proof. intros H ->. by apply H. Qed.

(** X24: away from the name [tables], discovery is idempotent.  When no
    custom table and no table of the catalog is named [tables] up to
    letter case, [tables] is no table name of the DB object, and the
    engine gives the same catalog to two discoveries run one after the
    other, both return, and the second leaves on the DB object the
    attributes and the table names of the first: all it adds is its
    catalog query to the history of the connection. *)
Theorem discovery_is_idempotent_off_tables (names : list string) (db : DB) :
  let catalog := map (fun n => [VStr n]) names in
  respond db (history db) (Execute catalog_stmt []) = Some catalog ->
  respond db (history db ++ [Execute catalog_stmt []])%list
          (Execute catalog_stmt []) = Some catalog ->
  (forall t, t ∈ default [] (custom_tables db) -> lower (name t) <> "tables") ->
  (forall n, n ∈ names -> lower n <> "tables") ->
  "tables" ∉ table_names db ->
  exists db1 db2,
    initialize_tables db = (Ok tt, db1)
    /\ initialize_tables db1 = (Ok tt, db2)
    /\ table_names db2 = table_names db1
    /\ attrs db2 = attrs db1
    /\ history db2 = (history db1 ++ [Execute catalog_stmt []])%list.
Proof.
  cbv zeta. intros H1 H2 Hcustom Hnames Hno.
  destruct (discovery_returns names db H1) as [db1 Hrun1]; [by intros Hin|].
  destruct (discovery_frame db db1 Hrun1) as (Hh & Hr & Hc & _ & _).
  assert ("tables" ∉ table_names db1) as Hno1.
  { pose proof (discovery_keeps_listed (fun d => "tables" ∉ table_names d)
                  names db H1) as Hp.
    rewrite Hrun1 in Hp. apply Hp; try done.
    - intros t d Ht _ Hd.
      cbn [table_names_add setattr set_table_names set_attrs table_names].
      rewrite elem_of_union, elem_of_singleton. intros [E|E]; [|done].
      symmetry in E. revert E. by apply lower_not_tables, Hcustom.
    - intros n d Hn _ Hd.
      cbn [table_names_add setattr set_table_names set_attrs table_names].
      rewrite elem_of_union, elem_of_singleton. intros [E|E]; [|done].
      symmetry in E. revert E. by apply Hnames. }
  pose proof (discovery_forgets_tables db db1 Hrun1) as Hun.
  exists db1, (after [Execute catalog_stmt []] db1).
  split; [done|]. split; [|done].
  rewrite (initialize_tables_answered (map (fun n => [VStr n]) names))
    by (by rewrite Hr, Hh).
  rewrite (bind_ok _ _ tt _ (after [Execute catalog_stmt []] db1)).
  2:{ apply for_each_skips. intros t Ht. rewrite Hc in Ht.
      rewrite bind_custom_table_eq. apply bind_name_skips; [by apply Hcustom|].
      rewrite resolves_after.
      apply (discovery_resolves_custom t db db1 Hrun1 Ht). by apply Hcustom. }
  rewrite (bind_ok _ _ tt _ (after [Execute catalog_stmt []] db1)).
  2:{ rewrite catalog_loop_form. apply for_each_skips. intros n Hn.
      apply bind_name_skips; [by apply Hnames|].
      rewrite resolves_after.
      apply (discovery_resolves names db db1 n H1 Hrun1 Hn). by apply Hnames. }
  destruct (forget_tables_cases (after [Execute catalog_stmt []] db1))
    as [->|(_ & _ & Hin)]; [|done].
  by rewrite del_tables_unbound.
Qed.

Lemma discovery_is_idempotent_off_tables_witness :
  exists db1 db2,
    initialize_tables catalog_db = (Ok tt, db1)
    /\ initialize_tables db1 = (Ok tt, db2)
    /\ table_names db2 = table_names db1
    /\ attrs db2 = attrs db1
    /\ history db2 = (history db1 ++ [Execute catalog_stmt []])%list.
Proof.
  apply (discovery_is_idempotent_off_tables ["Folder"; "link"] catalog_db);
    try reflexivity.
  - intros t Ht. apply list_elem_of_singleton in Ht as ->. discriminate.
  - intros n Hn. apply elem_of_cons in Hn as [->|Hn]; [discriminate|].
    apply list_elem_of_singleton in Hn as ->. discriminate.
  - apply not_elem_of_empty.
Defined.

(** ** Construction *)

Lemma resolves_new_object engine datacls custom order (y : string) :
  resolves (mkDB engine [] datacls custom ∅ ∅ order) y = fixed_attr custom y.
Proof. unfold resolves. cbn [attrs custom_tables]. by rewrite dom_empty_L. Qed.

Lemma create_table_not_fixed custom : fixed_attr custom "create_table" = false.
Proof. by destruct custom; vm_compute. Qed.

(** X19: the constructor.  It raises the StorageError when the connection
    cannot be opened or the catalog query is refused.  When the engine
    answers the catalog query with the tables [names], it returns a DB
    object, whatever the names, on which that query is the only call
    made; every table bound sits under the lower case of its name;
    nothing is bound to [tables]; the lower-cased name of every catalog
    table other than [tables] resolves; it is bound to a table of that
    name unless it is one of the fixed names of the object or
    [create_table]; and [create_table] is the CreateTable operation, so
    that a catalog table of that name is among the table names without
    being reachable. *)
Theorem constructor_binds_the_catalog
    (engine : list call -> call -> option (list (list value)))
    (datacls : bool) (custom : option (list Table))
    (order : gset string -> list string) (names : list string) :
  DB__init__ None datacls custom order = Raise StorageError
  /\ (engine [] (Execute catalog_stmt []) = None ->
      DB__init__ (Some engine) datacls custom order = Raise StorageError)
  /\ (engine [] (Execute catalog_stmt []) = Some (map (fun n => [VStr n]) names) ->
      exists db,
        DB__init__ (Some engine) datacls custom order = Ok db
        /\ history db = [Execute catalog_stmt []]
        /\ well_keyed db
        /\ attrs db !! "create_table" = Some AOther
        /\ attrs db !! "tables" = None
        /\ (forall n, n ∈ names -> lower n <> "tables" ->
                      resolves db (lower n) = true)
        /\ (forall n, n ∈ names -> fixed_attr custom (lower n) = false ->
                      lower n <> "create_table" -> bound_to_table db (lower n))
        /\ ((exists n, n ∈ names /\ lower n = "create_table") ->
            listed db "create_table")).
Proof.
  split; [reflexivity|]. split.
  { intros H. unfold DB__init__.
    rewrite initialize_tables_refused; [done|]. by cbn [respond history]. }
  intros H. set (db0 := mkDB engine [] datacls custom ∅ ∅ order).
  assert (respond db0 (history db0) (Execute catalog_stmt [])
          = Some (map (fun n => [VStr n]) names)) as Hrows by done.
  destruct (discovery_returns names db0 Hrows) as [d Hinit];
    [by intros Hin|].
  eexists. split; [unfold DB__init__; fold db0; by rewrite Hinit|].
  cbn [set_attrs history attrs table_names].
  split; [by destruct (discovery_frame db0 d Hinit) as [-> _]|].
  split.
  { intros key t Hkey. cbn [attrs set_attrs] in Hkey.
    destruct (decide (key = "create_table")) as [->|Hne].
    - by rewrite lookup_insert_eq in Hkey.
    - rewrite lookup_insert_ne in Hkey by done.
      assert (well_keyed (snd (initialize_tables db0))) as Hwk.
      { apply preserves_well_keyed_discovery. intros k t' Hk.
        change (attrs db0) with (∅ : gmap string attr) in Hk.
        by rewrite lookup_empty in Hk. }
      rewrite Hinit in Hwk. by apply Hwk. }
  split; [apply lookup_insert_eq|]. split.
  { rewrite lookup_insert_ne by done. by apply (discovery_forgets_tables db0). }
  split.
  { intros n Hn Hne. pose proof (discovery_resolves names db0 d n Hrows Hinit Hn Hne)
      as Hb.
    unfold resolves in *. cbn [attrs custom_tables set_attrs].
    apply orb_true_iff in Hb as [Hb| ->]; [|apply orb_true_r].
    apply bool_decide_eq_true in Hb. rewrite bool_decide_true; [done|].
    rewrite dom_insert_L. by apply elem_of_union_r. }
  split.
  { intros n Hn Hfixed Hne.
    destruct (discovery_binds names db0 d n Hrows Hinit Hn) as [(t & Ht & Hk) _];
      [unfold db0; by rewrite resolves_new_object|].
    exists t. split; [|done]. cbn [set_attrs attrs].
    by rewrite lookup_insert_ne. }
  intros (n & Hn & Hk).
  destruct (discovery_binds names db0 d n Hrows Hinit Hn) as [_ (tn & Htn & Hl)].
  - unfold db0. by rewrite resolves_new_object, Hk, create_table_not_fixed.
  - exists tn. split; [done|]. by rewrite Hl.
Qed.

Lemma constructor_binds_the_catalog_witness :
  exists db,
    DB__init__ (Some (fun _ _ => Some [[VStr "Folder"]; [VStr "Create_Table"]]))
      false None (fun _ => []) = Ok db
    /\ attrs db !! "create_table" = Some AOther
    /\ bound_to_table db "folder"
    /\ listed db "create_table".
Proof.
  destruct (constructor_binds_the_catalog
              (fun _ _ => Some [[VStr "Folder"]; [VStr "Create_Table"]])
              false None (fun _ => []) ["Folder"; "Create_Table"])
    as (_ & _ & H).
  destruct H as (db & Hdb & _ & _ & Hc & _ & _ & Hb & Hl); [reflexivity|].
  exists db. split; [done|]. split; [done|]. split.
  - apply (Hb "Folder"); [apply list_elem_of_here|by vm_compute|discriminate].
  - apply Hl. exists "Create_Table".
    split; [apply list_elem_of_further, list_elem_of_here|reflexivity].
Defined.
